(** * asciiflow2: the drawing strategies of [js-lib/state-controller.js]

    A shallow embedding of [drawLine], the four [DrawFunction]
    implementations ([DrawBox], [DrawLine], [DrawFreeform], [DrawMove])
    and the [ascii.StateController] dispatcher, together with the
    properties of the drawing logic stated in the specification.

    The grid ([ascii.State]) and the point type ([ascii.Vector]) are
    collaborators that live in other files of the repository.  The point type
    is modelled from the specification; the grid is an interface
    ([StateOps]) over which all the code below is generic.  What the code
    does to the grid is observed through a logging implementation of that
    interface ([Logged]), which records every mutating call in order. *)

From Equations Require Import Equations.
From stdpp Require Import base numbers list strings sets gmap.

Local Open Scope Z_scope.

(** ** Collaborators *)

Module Vector.

(** Modelled from the spec: [ascii.Vector], which is defined outside
    [state-controller.js], is an immutable integer 2D coordinate with
    addition, equality and magnitude. *)
Record t : Type := mk { x : Z; y : Z }.

(** Modelled from the spec: [add] returns a new point, the componentwise
    sum. *)
Definition add (a b : t) : t := mk (x a + x b) (y a + y b).

(** Modelled from the spec: [equals] compares the coordinates. *)
Definition equals (a b : t) : bool := (x a =? x b) && (y a =? y b).

(** Modelled from the spec: [clone] returns a new point with the same
    coordinates. *)
Definition clone (a : t) : t := mk (x a) (y a).

(** Modelled from the spec: [length] is the magnitude
    [sqrt (x*x + y*y)]; the code only compares it with [0], which holds
    exactly when the sum of squares is [0], so the model keeps the square. *)
Definition lengthSquared (a : t) : Z := x a * x a + y a * y a.
Definition length_is_zero (a : t) : bool := lengthSquared a =? 0.

(** [k] steps of [d] away from [p] (not a method of the source; used to
    name the cells visited by [followLine]). *)
Definition steps (p d : t) (k : nat) : t :=
  mk (x p + Z.of_nat k * x d) (y p + Z.of_nat k * y d).

#[global] Instance eq_dec : EqDecision t.
Proof. solve_decision. Defined.

#[global] Instance countable : Countable t.
Proof.
  apply (inj_countable' (fun v => (x v, y v)) (fun p => mk p.1 p.2)).
  intros []; reflexivity.
Defined.

End Vector.

Module Context.

(** Modelled from the spec: [ascii.Context] is a snapshot of four booleans
    telling which neighbours of a cell are special. *)
Record t : Type := mk { left : bool; right : bool; up : bool; down : bool }.

End Context.

(** The methods of [ascii.State] that the controller calls; [ascii.State] is
    defined outside [state-controller.js], and the code below is generic in
    its implementation.  Reads ([isSpecial], [getContext]) leave the grid
    unchanged; the other four return the grid after the call. *)
Class StateOps (St : Type) : Type := {
  isSpecial : St -> Vector.t -> bool;
  getContext : St -> Vector.t -> Context.t;
  setValue : St -> Vector.t -> option string -> St;
  drawSpecial : St -> Vector.t -> St;
  clearDraw : St -> St;
  commitDraw : St -> St
}.

(** The mutating calls a grid can receive. *)
Inductive Call : Type :=
| CSetValue (p : Vector.t) (v : option string)
| CDrawSpecial (p : Vector.t)
| CClearDraw
| CCommitDraw.

(** A grid that also remembers, oldest first, the mutating calls it has
    received. *)
Record Logged (St : Type) : Type := mkLogged { inner : St; calls : list Call }.
Arguments mkLogged {St} _ _.
Arguments inner {St} _.
Arguments calls {St} _.

#[global] Instance Logged_ops {St : Type} `{StateOps St} : StateOps (Logged St) := {
  isSpecial l p := isSpecial (inner l) p;
  getContext l p := getContext (inner l) p;
  setValue l p v := mkLogged (setValue (inner l) p v) (calls l ++ [CSetValue p v]);
  drawSpecial l p := mkLogged (drawSpecial (inner l) p) (calls l ++ [CDrawSpecial p]);
  clearDraw l := mkLogged (clearDraw (inner l)) (calls l ++ [CClearDraw]);
  commitDraw l := mkLogged (commitDraw (inner l)) (calls l ++ [CCommitDraw])
}.

(** A grid with an empty log. *)
Definition fresh {St : Type} (st : St) : Logged St := mkLogged st [].

(** The cells of the preview after a sequence of calls: [clearDraw] empties
    it and [drawSpecial] adds a cell. *)
Definition preview_step (s : gset Vector.t) (c : Call) : gset Vector.t :=
  match c with
  | CClearDraw => ∅
  | CDrawSpecial p => s ∪ {[ p ]}
  | _ => s
  end.

Definition preview (cs : list Call) : gset Vector.t := foldl preview_step ∅ cs.

(** ** The line renderer *)

Section LineRenderer.

Context {St : Type} `{StateOps St}.

(** [while (hX1++ < hX2) { state.drawSpecial(new ascii.Vector(hX1, hY)); }]:
    the test reads [hX1] before the increment, the body after it. *)
Equations? drawLine_hloop (st : St) (hX1 hX2 hY : Z) : St
  by wf (Z.to_nat (hX2 - hX1)) lt :=
  drawLine_hloop st hX1 hX2 hY with Z_lt_dec hX1 hX2 := {
    | left _ => drawLine_hloop (drawSpecial st (Vector.mk (hX1 + 1) hY)) (hX1 + 1) hX2 hY
    | right _ => st }.
Proof. lia. Qed.

(** [while (vY1++ < vY2) { state.drawSpecial(new ascii.Vector(vX, vY1)); }] *)
Equations? drawLine_vloop (st : St) (vY1 vY2 vX : Z) : St
  by wf (Z.to_nat (vY2 - vY1)) lt :=
  drawLine_vloop st vY1 vY2 vX with Z_lt_dec vY1 vY2 := {
    | left _ => drawLine_vloop (drawSpecial st (Vector.mk vX (vY1 + 1))) (vY1 + 1) vY2 vX
    | right _ => st }.
Proof. lia. Qed.

Definition drawLine (st : St) (startPosition endPosition : Vector.t)
    (clockwise : bool) : St :=
  let hX1 := Z.min (Vector.x startPosition) (Vector.x endPosition) in
  let vY1 := Z.min (Vector.y startPosition) (Vector.y endPosition) in
  let hX2 := Z.max (Vector.x startPosition) (Vector.x endPosition) in
  let vY2 := Z.max (Vector.y startPosition) (Vector.y endPosition) in
  let hY := if clockwise then Vector.y startPosition else Vector.y endPosition in
  let vX := if clockwise then Vector.x endPosition else Vector.x startPosition in
  let st := drawLine_hloop st hX1 hX2 hY in
  let st := drawLine_vloop st vY1 vY2 vX in
  let st := drawSpecial st startPosition in
  let st := drawSpecial st endPosition in
  drawSpecial st (Vector.mk vX hY).

End LineRenderer.

Arguments drawLine : simpl never.

(** ** A reference grid *)

Module Grid.

(** Modelled from the spec: the grid collaborator [ascii.State], which is
    defined outside [state-controller.js].  A cell holds a special (line)
    glyph or a plain one; [drawSpecial] writes a special glyph to the draft
    layer, [clearDraw] discards the draft, [commitDraw] makes it permanent,
    [setValue] writes the committed layer directly, and the Context of a
    cell tells which of its four neighbours are special. *)
Inductive Glyph : Type := Special | Plain (s : string).

Record t : Type := mk { committed : gmap Vector.t Glyph; draft : gset Vector.t }.

Definition special_at (g : t) (p : Vector.t) : bool :=
  bool_decide (p ∈ draft g) ||
  match committed g !! p with Some Special => true | _ => false end.

Definition context_at (g : t) (p : Vector.t) : Context.t :=
  Context.mk (special_at g (Vector.add p (Vector.mk (-1) 0)))
             (special_at g (Vector.add p (Vector.mk 1 0)))
             (special_at g (Vector.add p (Vector.mk 0 (-1))))
             (special_at g (Vector.add p (Vector.mk 0 1))).

#[global] Instance ops : StateOps t := {
  isSpecial := special_at;
  getContext := context_at;
  setValue g p v :=
    mk (match v with Some s => <[p := Plain s]> (committed g) | None => delete p (committed g) end)
       (draft g);
  drawSpecial g p := mk (committed g) (draft g ∪ {[ p ]});
  clearDraw g := mk (committed g) ∅;
  commitDraw g := mk (gset_to_gmap Special (draft g) ∪ committed g) ∅
}.

(** The grid whose committed special cells are those of a list. *)
Definition of_cells (ps : list Vector.t) : t :=
  mk (list_to_map ((fun p => (p, Special)) <$> ps)) ∅.

End Grid.

(** ** The drawing strategies *)

(** How a method call ends: it returns, or a [TypeError] is thrown because a
    field that is still [null] is dereferenced. *)
Inductive completion : Type := Normal | TypeError.

(** The strategies keep a reference to the one grid of the controller; in
    the model the grid is passed to each method and returned from it, so
    that all of them act on the same grid. *)

Module DrawBox.
Section Methods.
Context {St : Type} `{StateOps St}.

(** [startPosition] is [null] until [start] is called; [endPosition] is
    absent until [move] is called. *)
Record t : Type := mk { startPosition : option Vector.t; endPosition : option Vector.t }.

Definition new : t := mk None None.

Definition start (self : t) (position : Vector.t) (st : St) : t * St * completion :=
  (mk (Some position) (endPosition self), st, Normal).

Definition move (self : t) (position : Vector.t) (st : St) : t * St * completion :=
  let self := mk (startPosition self) (Some position) in
  let st := clearDraw st in
  match startPosition self with
  | None => (* [drawLine] reads [startPosition.x] *) (self, st, TypeError)
  | Some startPosition =>
      let st := drawLine st startPosition position true in
      let st := drawLine st startPosition position false in
      (self, st, Normal)
  end.

Definition end_ (self : t) (position : Vector.t) (st : St) : t * St * completion :=
  (self, commitDraw st, Normal).

End Methods.
End DrawBox.

Module DrawLine.
Section Methods.
Context {St : Type} `{StateOps St}.

Record t : Type := mk { startPosition : option Vector.t }.

Definition new : t := mk None.

Definition start (self : t) (position : Vector.t) (st : St) : t * St * completion :=
  (mk (Some position), st, Normal).

Definition move (self : t) (position : Vector.t) (st : St) : t * St * completion :=
  let st := clearDraw st in
  match startPosition self with
  | None =>
      (* [getContext] is handed [null]; should it return, [drawLine] reads
         [startPosition.x] before it draws anything *)
      (self, st, TypeError)
  | Some startPosition =>
      let startContext := getContext st startPosition in
      let endContext := getContext st position in
      let clockwise :=
        (Context.up startContext && Context.down startContext) ||
        (Context.left endContext && Context.right endContext) in
      (self, drawLine st startPosition position clockwise, Normal)
  end.

Definition end_ (self : t) (position : Vector.t) (st : St) : t * St * completion :=
  (self, commitDraw st, Normal).

End Methods.
End DrawLine.

Module DrawFreeform.
Section Methods.
Context {St : Type} `{StateOps St}.

(** [value] is the glyph to stamp, or [null] to erase. *)
Record t : Type := mk { value : option string }.

Definition new (value : option string) : t := mk value.

Definition start (self : t) (position : Vector.t) (st : St) : t * St * completion :=
  (self, setValue st position (value self), Normal).

Definition move (self : t) (position : Vector.t) (st : St) : t * St * completion :=
  (self, setValue st position (value self), Normal).

Definition end_ (self : t) (position : Vector.t) (st : St) : t * St * completion :=
  (self, st, Normal).

End Methods.
End DrawFreeform.

Module DrawEnd.
(** The object literal [{position: ..., clockwise: ...}] pushed by
    [DrawMove.start]. *)
Record t : Type := mk { position : Vector.t; clockwise : bool }.
End DrawEnd.

(** [for (var i in l) body]: the indices of an array are visited in
    increasing order; [body] returns the loop state after the iteration
    ([continue] ends the iteration early), or [None] when it does not
    finish. *)
Fixpoint for_in {A S : Type} (l : list A) (body : S -> A -> option S) (s : S) : option S :=
  match l with
  | [] => Some s
  | a :: l' => s' ← body s a; for_in l' body s'
  end.

Module DrawMove.
Section Methods.
Context {St : Type} `{StateOps St}.

(** [ends] is [null] until [start] is called. *)
Record t : Type := mk { ends : option (list DrawEnd.t) }.

Definition new : t := mk None.

(** The test of [followLine] on the Context of the cell just reached. *)
Definition straight (context : Context.t) : bool :=
  (Context.left context && Context.right context &&
     negb (Context.up context) && negb (Context.down context)) ||
  (negb (Context.left context) && negb (Context.right context) &&
     Context.up context && Context.down context).

(** The [while (true)] loop of [followLine]; [fuel] bounds the number of
    iterations, and [None] means that the loop is still running after
    [fuel] of them. *)
Fixpoint followLine_loop (fuel : nat) (st : St) (endPosition direction : Vector.t)
    : option Vector.t :=
  match fuel with
  | O => None
  | S fuel =>
      let nextEnd := Vector.add endPosition direction in
      if negb (isSpecial st nextEnd) then Some endPosition
      else
        let endPosition := nextEnd in
        let context := getContext st nextEnd in
        if negb (Context.left context && Context.right context &&
                   negb (Context.up context) && negb (Context.down context)) &&
           negb (negb (Context.left context) && negb (Context.right context) &&
                   Context.up context && Context.down context)
        then Some endPosition
        else followLine_loop fuel st endPosition direction
  end.

Definition followLine (fuel : nat) (st : St) (startPosition direction : Vector.t)
    : option Vector.t :=
  followLine_loop fuel st (Vector.clone startPosition) direction.

Definition directions : list Vector.t :=
  [Vector.mk 1 0; Vector.mk (-1) 0; Vector.mk 0 1; Vector.mk 0 (-1)].

(** The body of the inner loop of [start], for the direction [dj]. *)
Definition start_inner (fuel : nat) (st : St) (di midPoint : Vector.t) (clockwise : bool)
    (ends : list DrawEnd.t) (dj : Vector.t) : option (list DrawEnd.t) :=
  if Vector.length_is_zero (Vector.add di dj) then
    (* Don't go back on ourselves. *)
    Some ends
  else
    end_ ← followLine fuel st midPoint dj;
    (* Ignore any directions that didn't go anywhere. *)
    if Vector.equals midPoint end_ then Some ends
    else Some (ends ++ [DrawEnd.mk end_ clockwise]).

(** The body of the outer loop of [start], for the direction [di]. *)
Definition start_outer (fuel : nat) (st : St) (position : Vector.t)
    (ends : list DrawEnd.t) (di : Vector.t) : option (list DrawEnd.t) :=
  midPoint ← followLine fuel st position di;
  (* Clockwise is a lie, it is true if we move vertically first. *)
  let clockwise := negb (Vector.x di =? 0) in
  (* Ignore any directions that didn't go anywhere. *)
  if Vector.equals position midPoint then Some ends
  else
    let midPointContext := getContext st midPoint in
    (* Special case, a straight line with no turns. *)
    if Z.b2z (Context.left midPointContext) + Z.b2z (Context.right midPointContext) +
       Z.b2z (Context.up midPointContext) + Z.b2z (Context.down midPointContext) =? 1
    then Some (ends ++ [DrawEnd.mk midPoint clockwise])
    else
      (* Continue following lines from the midpoint. *)
      for_in directions (start_inner fuel st di midPoint clockwise) ends.

(** [start] only reads the grid.  [None]: one of the traces is still
    running after [fuel] iterations. *)
Definition start (fuel : nat) (self : t) (position : Vector.t) (st : St)
    : option (t * St * completion) :=
  let context := getContext st position in
  ends ← for_in directions (start_outer fuel st position) [];
  Some (mk (Some ends), st, Normal).

(** [for (var i in this.ends)] visits nothing when [ends] is [null]. *)
Definition move (self : t) (position : Vector.t) (st : St) : t * St * completion :=
  let st := clearDraw st in
  let st :=
    foldl (fun st e => drawLine st position (DrawEnd.position e) (DrawEnd.clockwise e))
          st (default [] (ends self)) in
  (self, st, Normal).

Definition end_ (self : t) (position : Vector.t) (st : St) : t * St * completion :=
  (self, commitDraw st, Normal).

End Methods.
End DrawMove.

(** ** The dispatcher *)

(** The [DrawFunction] interface with its four implementations. *)
Inductive DrawFunction : Type :=
| Box (self : DrawBox.t)
| Line (self : DrawLine.t)
| Freeform (self : DrawFreeform.t)
| Move (self : DrawMove.t).

(** The buttons whose click handlers the constructor registers. *)
Inductive Button : Type :=
| BoxButton | LineButton | FreeformButton | EraseButton | MoveButton.

Module StateController.
Section Methods.
Context {St : Type} `{StateOps St}.

Record t : Type := mk { state : St; drawFunction : DrawFunction }.

(** [ascii.StateController = function(state) { ... }] *)
Definition new (state : St) : t := mk state (Box DrawBox.new).

(** The click handlers registered by the constructor. *)
Definition click (self : t) (b : Button) : t :=
  match b with
  | BoxButton => mk (state self) (Box DrawBox.new)
  | LineButton => mk (state self) (Line DrawLine.new)
  | FreeformButton => mk (state self) (Freeform (DrawFreeform.new (Some "O"%string)))
  | EraseButton => mk (state self) (Freeform (DrawFreeform.new None))
  | MoveButton => mk (state self) (Move DrawMove.new)
  end.

Definition handleDrawingPress (fuel : nat) (self : t) (position : Vector.t)
    : option (t * completion) :=
  match drawFunction self with
  | Box b =>
      let '(b, st, c) := DrawBox.start b position (state self) in Some (mk st (Box b), c)
  | Line l =>
      let '(l, st, c) := DrawLine.start l position (state self) in Some (mk st (Line l), c)
  | Freeform f =>
      let '(f, st, c) := DrawFreeform.start f position (state self) in
      Some (mk st (Freeform f), c)
  | Move m =>
      '(m, st, c) ← DrawMove.start fuel m position (state self);
      Some (mk st (Move m), c)
  end.

Definition handleDrawingRelease (self : t) (position : Vector.t) : t * completion :=
  match drawFunction self with
  | Box b =>
      let '(b, st, c) := DrawBox.end_ b position (state self) in (mk st (Box b), c)
  | Line l =>
      let '(l, st, c) := DrawLine.end_ l position (state self) in (mk st (Line l), c)
  | Freeform f =>
      let '(f, st, c) := DrawFreeform.end_ f position (state self) in (mk st (Freeform f), c)
  | Move m =>
      let '(m, st, c) := DrawMove.end_ m position (state self) in (mk st (Move m), c)
  end.

Definition handleDrawingMove (self : t) (position : Vector.t) : t * completion :=
  match drawFunction self with
  | Box b =>
      let '(b, st, c) := DrawBox.move b position (state self) in (mk st (Box b), c)
  | Line l =>
      let '(l, st, c) := DrawLine.move l position (state self) in (mk st (Line l), c)
  | Freeform f =>
      let '(f, st, c) := DrawFreeform.move f position (state self) in (mk st (Freeform f), c)
  | Move m =>
      let '(m, st, c) := DrawMove.move m position (state self) in (mk st (Move m), c)
  end.

End Methods.
End StateController.

(** ** Vocabulary of the statements *)

(** The cells of row [hY] with [a < x <= b], by increasing [x]. *)
Definition row_cells (hY a b : Z) : list Vector.t :=
  (fun x => Vector.mk x hY) <$> seqZ (a + 1) (b - a).

(** The cells of column [vX] with [a < y <= b], by increasing [y]. *)
Definition col_cells (vX a b : Z) : list Vector.t :=
  (fun y => Vector.mk vX y) <$> seqZ (a + 1) (b - a).

(** The corner of the path drawn by [drawLine]. *)
Definition corner (startPosition endPosition : Vector.t) (clockwise : bool) : Vector.t :=
  Vector.mk (if clockwise then Vector.x endPosition else Vector.x startPosition)
            (if clockwise then Vector.y startPosition else Vector.y endPosition).

(** The cells [drawLine] is expected to mark, in the order of its calls. *)
Definition line_cells (A B : Vector.t) (cw : bool) : list Vector.t :=
  row_cells (Vector.y (corner A B cw)) (Z.min (Vector.x A) (Vector.x B))
            (Z.max (Vector.x A) (Vector.x B)) ++
  col_cells (Vector.x (corner A B cw)) (Z.min (Vector.y A) (Vector.y B))
            (Z.max (Vector.y A) (Vector.y B)) ++
  [A; B; corner A B cw].

(** The outline of the rectangle with opposite corners [A] and [B]. *)
Definition on_outline (A B p : Vector.t) : Prop :=
  Z.min (Vector.x A) (Vector.x B) ≤ Vector.x p ≤ Z.max (Vector.x A) (Vector.x B) ∧
  Z.min (Vector.y A) (Vector.y B) ≤ Vector.y p ≤ Z.max (Vector.y A) (Vector.y B) ∧
  (Vector.x p = Vector.x A ∨ Vector.x p = Vector.x B ∨
   Vector.y p = Vector.y A ∨ Vector.y p = Vector.y B).

(** [followLine] from [p] in direction [d], having reached step [i], stops at
    step [k]: the cells of the steps [i+1 .. k] are special, those of the
    steps [i+1 .. k-1] are straight, and either the cell after step [k] is not
    special, or step [k] was taken and its cell is not straight. *)
Definition stops_at {St : Type} `{StateOps St} (st : St) (p d : Vector.t) (i k : nat) : Prop :=
  (i ≤ k)%nat ∧
  (∀ j, (i < j ≤ k)%nat → isSpecial st (Vector.steps p d j) = true) ∧
  (∀ j, (i < j < k)%nat →
        DrawMove.straight (getContext st (Vector.steps p d j)) = true) ∧
  (isSpecial st (Vector.steps p d (S k)) = false ∨
   ((i < k)%nat ∧ DrawMove.straight (getContext st (Vector.steps p d k)) = false)).

(** Modelled from the spec: the Context of a cell reports, for each of the
    four directions, whether the neighbour in that direction is special. *)
Definition context_of_neighbours {St : Type} `{StateOps St} (st : St) : Prop :=
  ∀ p, getContext st p =
       Context.mk (isSpecial st (Vector.add p (Vector.mk (-1) 0)))
                  (isSpecial st (Vector.add p (Vector.mk 1 0)))
                  (isSpecial st (Vector.add p (Vector.mk 0 (-1))))
                  (isSpecial st (Vector.add p (Vector.mk 0 1))).

(** Every trace along an axis meets, within [n] steps, a cell that is not
    special or not straight. *)
Definition runs_end_within {St : Type} `{StateOps St} (st : St) (n : nat) : Prop :=
  ∀ p d, d ∈ DrawMove.directions →
    ∃ k, (k < n)%nat ∧
         (isSpecial st (Vector.steps p d (S k)) = false ∨
          DrawMove.straight (getContext st (Vector.steps p d (S k))) = false).

(** The DrawEnds that [start] collects for one direction. *)
Definition contribution {St : Type} `{StateOps St} (fuel : nat) (st : St)
    (position di : Vector.t) : option (list DrawEnd.t) :=
  DrawMove.start_outer fuel st position [] di.

(** The number of special neighbours reported by a Context. *)
Definition neighbours (c : Context.t) : Z :=
  Z.b2z (Context.left c) + Z.b2z (Context.right c) +
  Z.b2z (Context.up c) + Z.b2z (Context.down c).

(** The special cells are those of a horizontal run at row 5, columns 2 to 4. *)
Definition horizontal_run : Grid.t :=
  Grid.of_cells [Vector.mk 2 5; Vector.mk 3 5; Vector.mk 4 5].

(** Grids used as concrete inputs. *)
Definition empty_grid : Grid.t := Grid.of_cells [].

(** A filled 3x3 block around the origin with one more cell on each axis. *)
Definition plus_grid : Grid.t :=
  Grid.of_cells
    [Vector.mk 0 0; Vector.mk 1 0; Vector.mk 2 0; Vector.mk (-1) 0; Vector.mk (-2) 0;
     Vector.mk 0 1; Vector.mk 0 2; Vector.mk 0 (-1); Vector.mk 0 (-2);
     Vector.mk 1 1; Vector.mk 1 (-1); Vector.mk (-1) 1; Vector.mk (-1) (-1)].

(** A vertical line through the origin. *)
Definition vertical_line : Grid.t :=
  Grid.of_cells [Vector.mk 0 (-1); Vector.mk 0 0; Vector.mk 0 1].

(** The controller after the move events at [ps], handled one after another
    (should a handler throw, the controller stays as the statements before
    the throw left it, and the next event is handled from there). *)
Definition drag {St : Type} `{StateOps St} (c : StateController.t) (ps : list Vector.t)
    : StateController.t :=
  foldl (fun c p => (StateController.handleDrawingMove c p).1) c ps.


(** The DrawEnd [e] was found through a first hop from [position] in
    direction [di]: that hop left the pivot and ended on a midpoint, and [e]
    sits on the midpoint or at the end of a trace from the midpoint. *)
Definition found_through {St : Type} `{StateOps St} (fuel : nat) (st : St)
    (position di : Vector.t) (e : DrawEnd.t) : Prop :=
  ∃ midPoint,
    DrawMove.followLine fuel st position di = Some midPoint ∧
    midPoint ≠ position ∧
    (DrawEnd.position e = midPoint ∨
     ∃ dj, dj ∈ DrawMove.directions ∧
           DrawMove.followLine fuel st midPoint dj = Some (DrawEnd.position e)).

(** The fields that [move] dereferences are set. *)
Definition armed (f : DrawFunction) : Prop :=
  match f with
  | Box self => is_Some (DrawBox.startPosition self)
  | Line self => is_Some (DrawLine.startPosition self)
  | Freeform _ | Move _ => True
  end.

(** ** Properties *)

Lemma Vector_mk_eq (a b c d : Z) : Vector.mk a b = Vector.mk c d ↔ a = c ∧ b = d.
Proof. split; [intros [= -> ->]; done | intros [-> ->]; done]. Qed.

Section LoggedFacts.

Context {St : Type} `{StateOps St}.
Implicit Types (l : Logged St) (p A B : Vector.t) (cw : bool).

Lemma preview_app (cs1 cs2 : list Call) :
  preview (cs1 ++ cs2) = foldl preview_step (preview cs1) cs2.
Proof. unfold preview. apply foldl_app. Qed.

Lemma preview_step_specials (s : gset Vector.t) (ps : list Vector.t) :
  foldl preview_step s (CDrawSpecial <$> ps) = s ∪ list_to_set ps.
Proof.
  revert s. induction ps as [|q ps IH]; intros s; simpl.
  - set_solver.
  - rewrite IH. set_solver.
Qed.

Lemma preview_specials (ps : list Vector.t) :
  preview (CDrawSpecial <$> ps) = list_to_set ps.
Proof. unfold preview. rewrite preview_step_specials. set_solver. Qed.

Lemma preview_after_clear (cs : list Call) (ps : list Vector.t) :
  preview (cs ++ CClearDraw :: (CDrawSpecial <$> ps)) = list_to_set ps.
Proof.
  rewrite preview_app. simpl. rewrite preview_step_specials. set_solver.
Qed.

Lemma hloop_calls l a b hY :
  calls (drawLine_hloop l a b hY) = calls l ++ (CDrawSpecial <$> row_cells hY a b).
Proof.
  unfold row_cells.
  funelim (drawLine_hloop l a b hY).
  - rewrite H0. simpl. rewrite (seqZ_cons (hX1 + 1)) by lia. simpl.
    rewrite <- app_assoc. simpl. repeat f_equal; lia.
  - rewrite seqZ_nil by lia. simpl. by rewrite app_nil_r.
Qed.

Lemma vloop_calls l a b vX :
  calls (drawLine_vloop l a b vX) = calls l ++ (CDrawSpecial <$> col_cells vX a b).
Proof.
  unfold col_cells.
  funelim (drawLine_vloop l a b vX).
  - rewrite H0. simpl. rewrite (seqZ_cons (vY1 + 1)) by lia. simpl.
    rewrite <- app_assoc. simpl. repeat f_equal; lia.
  - rewrite seqZ_nil by lia. simpl. by rewrite app_nil_r.
Qed.

(** Logging does not change what the code does to the grid. *)
Lemma inner_hloop l a b hY :
  inner (drawLine_hloop l a b hY) = drawLine_hloop (inner l) a b hY.
Proof.
  funelim (drawLine_hloop l a b hY).
  - rewrite H0. symmetry. rewrite drawLine_hloop_equation_1, Heq. reflexivity.
  - symmetry. rewrite drawLine_hloop_equation_1, Heq. reflexivity.
Qed.

Lemma inner_vloop l a b vX :
  inner (drawLine_vloop l a b vX) = drawLine_vloop (inner l) a b vX.
Proof.
  funelim (drawLine_vloop l a b vX).
  - rewrite H0. symmetry. rewrite drawLine_vloop_equation_1, Heq. reflexivity.
  - symmetry. rewrite drawLine_vloop_equation_1, Heq. reflexivity.
Qed.

Lemma inner_drawLine l A B cw :
  inner (drawLine l A B cw) = drawLine (inner l) A B cw.
Proof. unfold drawLine. cbn. by rewrite inner_vloop, inner_hloop. Qed.

Lemma drawLine_calls l A B cw :
  calls (drawLine l A B cw) = calls l ++ (CDrawSpecial <$> line_cells A B cw).
Proof.
  unfold drawLine, line_cells, corner. simpl.
  rewrite vloop_calls, hloop_calls. rewrite !fmap_app, <- !app_assoc.
  destruct cw; reflexivity.
Qed.

Lemma elem_of_row_cells p hY a b :
  p ∈ row_cells hY a b ↔ Vector.y p = hY ∧ a < Vector.x p ≤ b.
Proof.
  unfold row_cells. rewrite list_elem_of_fmap. setoid_rewrite elem_of_seqZ.
  split.
  - intros (x & -> & Hx). simpl. lia.
  - intros [Hy Hx]. exists (Vector.x p). destruct p; simpl in *. subst. split; [done | lia].
Qed.

Lemma elem_of_col_cells p vX a b :
  p ∈ col_cells vX a b ↔ Vector.x p = vX ∧ a < Vector.y p ≤ b.
Proof.
  unfold col_cells. rewrite list_elem_of_fmap. setoid_rewrite elem_of_seqZ.
  split.
  - intros (y & -> & Hy). simpl. lia.
  - intros [Hx Hy]. exists (Vector.y p). destruct p; simpl in *. subst. split; [done | lia].
Qed.

(** The marked cells are the two closed runs of the path. *)
Lemma elem_of_line_cells p A B cw :
  p ∈ line_cells A B cw ↔
    (Vector.y p = Vector.y (corner A B cw) ∧
     Z.min (Vector.x A) (Vector.x B) ≤ Vector.x p ≤ Z.max (Vector.x A) (Vector.x B)) ∨
    (Vector.x p = Vector.x (corner A B cw) ∧
     Z.min (Vector.y A) (Vector.y B) ≤ Vector.y p ≤ Z.max (Vector.y A) (Vector.y B)).
Proof.
  unfold line_cells. rewrite !elem_of_app, elem_of_row_cells, elem_of_col_cells.
  rewrite !elem_of_cons, elem_of_nil.
  destruct p as [px py], A as [ax ay], B as [bx b_y], cw; unfold corner; simpl;
    rewrite !Vector_mk_eq; lia.
Qed.

Lemma preview_app_specials (cs : list Call) (ps : list Vector.t) :
  preview (cs ++ (CDrawSpecial <$> ps)) = preview cs ∪ list_to_set ps.
Proof. rewrite preview_app. apply preview_step_specials. Qed.

Lemma preview_drawLine l A B cw :
  preview (calls (drawLine l A B cw)) = preview (calls l) ∪ list_to_set (line_cells A B cw).
Proof. rewrite drawLine_calls. apply preview_app_specials. Qed.

Lemma corner_in_line_cells A B cw : corner A B cw ∈ line_cells A B cw.
Proof. unfold line_cells. rewrite !elem_of_app. right; right. set_solver. Qed.

Lemma drawLine_marks_corner_aux l A B cw :
  last (calls (drawLine l A B cw)) = Some (CDrawSpecial (corner A B cw)) ∧
  corner A B cw ∈ preview (calls (drawLine l A B cw)).
Proof.
  split.
  - rewrite drawLine_calls. unfold line_cells.
    rewrite !fmap_app, !last_app. reflexivity.
  - rewrite preview_drawLine, elem_of_union, elem_of_list_to_set. right.
    apply corner_in_line_cells.
Qed.

(** The calls of the loop of [DrawMove.move]. *)
Lemma move_ends_calls (ends : list DrawEnd.t) p l :
  ∃ cells : list Vector.t,
    calls (foldl (fun st e => drawLine st p (DrawEnd.position e) (DrawEnd.clockwise e))
                 l ends) =
    calls l ++ (CDrawSpecial <$> cells).
Proof.
  revert l. induction ends as [|e ends IH]; intros l; cbn [foldl].
  - exists []. simpl. by rewrite app_nil_r.
  - destruct (IH (drawLine l p (DrawEnd.position e) (DrawEnd.clockwise e))) as [cells ->].
    exists (line_cells p (DrawEnd.position e) (DrawEnd.clockwise e) ++ cells).
    rewrite drawLine_calls, fmap_app, <- app_assoc. reflexivity.
Qed.

(** C5: for every start, end and clockwise flag, the corner that [drawLine]
    marks is the cell [(vX, hY)] with [hY = startPosition.y] and
    [vX = endPosition.x] when [clockwise] holds, and [hY = endPosition.y] and
    [vX = startPosition.x] otherwise: it is the cell of the last
    [drawSpecial] call, and it belongs to the preview afterwards. *)
Theorem drawLine_marks_corner l A B cw :
  let hY := if cw then Vector.y A else Vector.y B in
  let vX := if cw then Vector.x B else Vector.x A in
  last (calls (drawLine l A B cw)) = Some (CDrawSpecial (Vector.mk vX hY)) ∧
  Vector.mk vX hY ∈ preview (calls (drawLine l A B cw)).
Proof.
  cbv zeta. apply (drawLine_marks_corner_aux l A B cw).
Qed.

(** C6, as the code has it: the horizontal scan marks, by increasing [x], the
    cells of row [hY] with [hX1 < x <= hX2] (the lower bound is left out, the
    upper one is marked), then the vertical scan marks the cells of column
    [vX] with [vY1 < y <= vY2], and only then the two endpoints and the corner
    are marked. *)
Theorem drawLine_scans l A B cw :
  let hX1 := Z.min (Vector.x A) (Vector.x B) in
  let hX2 := Z.max (Vector.x A) (Vector.x B) in
  let vY1 := Z.min (Vector.y A) (Vector.y B) in
  let vY2 := Z.max (Vector.y A) (Vector.y B) in
  let hY := if cw then Vector.y A else Vector.y B in
  let vX := if cw then Vector.x B else Vector.x A in
  ∃ hs vs : list Vector.t,
    calls (drawLine_hloop l hX1 hX2 hY) = calls l ++ (CDrawSpecial <$> hs) ∧
    calls (drawLine_vloop (drawLine_hloop l hX1 hX2 hY) vY1 vY2 vX) =
      calls l ++ (CDrawSpecial <$> hs) ++ (CDrawSpecial <$> vs) ∧
    calls (drawLine l A B cw) =
      calls l ++ (CDrawSpecial <$> hs) ++ (CDrawSpecial <$> vs) ++
      [CDrawSpecial A; CDrawSpecial B; CDrawSpecial (Vector.mk vX hY)] ∧
    (∀ p, p ∈ hs ↔ Vector.y p = hY ∧ hX1 < Vector.x p ≤ hX2) ∧
    (∀ p, p ∈ vs ↔ Vector.x p = vX ∧ vY1 < Vector.y p ≤ vY2) ∧
    NoDup hs ∧ NoDup vs.
Proof.
  cbv zeta.
  exists (row_cells (if cw then Vector.y A else Vector.y B)
            (Z.min (Vector.x A) (Vector.x B)) (Z.max (Vector.x A) (Vector.x B))),
         (col_cells (if cw then Vector.x B else Vector.x A)
            (Z.min (Vector.y A) (Vector.y B)) (Z.max (Vector.y A) (Vector.y B))).
  split; [apply hloop_calls|].
  split; [rewrite vloop_calls, hloop_calls, <- app_assoc; reflexivity|].
  split.
  { rewrite drawLine_calls. unfold line_cells, corner. simpl.
    rewrite !fmap_app. destruct cw; reflexivity. }
  split; [intros p; apply elem_of_row_cells|].
  split; [intros p; apply elem_of_col_cells|].
  split.
  - unfold row_cells. apply NoDup_fmap_2; [|apply NoDup_seqZ].
    intros x1 x2 [= ->]. reflexivity.
  - unfold col_cells. apply NoDup_fmap_2; [|apply NoDup_seqZ].
    intros y1 y2 [= ->]. reflexivity.
Qed.

(** C8: both orientations mark the two endpoints and their corner; when the
    endpoints share a row or a column, both orientations mark the same set of
    cells. *)
Theorem drawLine_orientations l A B :
  (∀ cw, {[ A; B; corner A B cw ]} ⊆ preview (calls (drawLine l A B cw))) ∧
  (Vector.x A = Vector.x B ∨ Vector.y A = Vector.y B →
   preview (calls (drawLine l A B true)) = preview (calls (drawLine l A B false))).
Proof.
  split.
  - intros cw p Hp. rewrite preview_drawLine, elem_of_union, elem_of_list_to_set.
    right. unfold line_cells. rewrite !elem_of_app. right; right. set_solver.
  - intros Hdeg. rewrite !preview_drawLine. f_equal.
    apply set_eq. intros p. rewrite !elem_of_list_to_set, !elem_of_line_cells.
    unfold corner. destruct p as [px py], A as [ax ay], B as [bx b_y]. simpl in *. lia.
Qed.

(** C9: with anchor [A], [move(B)] of the Box strategy clears the preview
    and then marks exactly the cells of [drawLine(A, B, true)] together with
    those of [drawLine(A, B, false)]: the outline of the rectangle spanned by
    [A] and [B], both corners included. *)
Theorem box_move_outline l (self : DrawBox.t) A B (st1 st2 : St) :
  DrawBox.startPosition self = Some A →
  let after := DrawBox.move self B l in
  after.2 = Normal ∧
  calls after.1.2 =
    calls l ++ CClearDraw ::
      (CDrawSpecial <$> (line_cells A B true ++ line_cells A B false)) ∧
  preview (calls after.1.2) =
    preview (calls (drawLine (fresh st1) A B true)) ∪
    preview (calls (drawLine (fresh st2) A B false)) ∧
  (∀ p, p ∈ preview (calls after.1.2) ↔ on_outline A B p) ∧
  corner A B true ∈ preview (calls after.1.2) ∧
  corner A B false ∈ preview (calls after.1.2).
Proof.
  intros Hanchor. destruct self as [sp ep]. simpl in Hanchor. subst sp. cbv zeta.
  change (DrawBox.move (DrawBox.mk (Some A) ep) B l)
    with (DrawBox.mk (Some A) (Some B),
          drawLine (drawLine (clearDraw l) A B true) A B false, Normal).
  cbn [fst snd].
  assert (Hcalls :
    calls (drawLine (drawLine (clearDraw l) A B true) A B false) =
    calls l ++ CClearDraw ::
      (CDrawSpecial <$> (line_cells A B true ++ line_cells A B false))).
  { rewrite !drawLine_calls. simpl. rewrite fmap_app, <- !app_assoc. reflexivity. }
  rewrite Hcalls, preview_after_clear, !preview_drawLine.
  assert (Hmem : ∀ p, p ∈ (list_to_set (line_cells A B true ++ line_cells A B false)
                            : gset Vector.t) ↔ on_outline A B p).
  { intros p. rewrite elem_of_list_to_set, elem_of_app, !elem_of_line_cells.
    unfold on_outline, corner. destruct p, A, B. simpl. lia. }
  split; [reflexivity|]. split; [reflexivity|].
  split; [rewrite list_to_set_app_L; set_solver|].
  split; [exact Hmem|].
  split; apply Hmem; unfold on_outline, corner; destruct A, B; simpl; lia.
Qed.

(** C7: with anchor [A], [move(p)] of the Line strategy clears the preview,
    reads the Contexts of [A] and [p], takes [clockwise] to be true exactly
    when [A] has both its up and down neighbours special or [p] has both its
    left and right neighbours special, and draws one line with that
    orientation; when [A] has both up and down neighbours special the corner
    drawn is [(p.x, A.y)], which for [A = (0,0)] and [p = (3,0)] is [(3,0)]. *)
Theorem line_move_orientation l (self : DrawLine.t) A p :
  DrawLine.startPosition self = Some A →
  let startContext := getContext (clearDraw l) A in
  let endContext := getContext (clearDraw l) p in
  let clockwise :=
    (Context.up startContext && Context.down startContext) ||
    (Context.left endContext && Context.right endContext) in
  let after := DrawLine.move self p l in
  (clockwise = true ↔
     (Context.up startContext = true ∧ Context.down startContext = true) ∨
     (Context.left endContext = true ∧ Context.right endContext = true)) ∧
  after = (self, drawLine (clearDraw l) A p clockwise, Normal) ∧
  calls after.1.2 =
    calls l ++ CClearDraw :: (CDrawSpecial <$> line_cells A p clockwise) ∧
  last (calls after.1.2) =
    Some (CDrawSpecial (if clockwise then Vector.mk (Vector.x p) (Vector.y A)
                        else Vector.mk (Vector.x A) (Vector.y p))) ∧
  (Context.up startContext = true → Context.down startContext = true →
   last (calls after.1.2) = Some (CDrawSpecial (Vector.mk (Vector.x p) (Vector.y A)))).
Proof.
  intros Hanchor. cbv zeta. unfold DrawLine.move. rewrite Hanchor.
  set (cw := (Context.up (getContext (clearDraw l) A) &&
              Context.down (getContext (clearDraw l) A)) ||
             (Context.left (getContext (clearDraw l) p) &&
              Context.right (getContext (clearDraw l) p))).
  assert (Hlast : last (calls (drawLine (clearDraw l) A p cw)) =
                  Some (CDrawSpecial (if cw then Vector.mk (Vector.x p) (Vector.y A)
                                      else Vector.mk (Vector.x A) (Vector.y p)))).
  { destruct (drawLine_marks_corner_aux (clearDraw l) A p cw) as [-> _].
    destruct cw; reflexivity. }
  split; [|split; [|split; [|split]]].
  - unfold cw. rewrite orb_true_iff, !andb_true_iff. reflexivity.
  - reflexivity.
  - cbn [fst snd]. rewrite drawLine_calls. simpl. rewrite <- app_assoc. reflexivity.
  - exact Hlast.
  - intros Hup Hdown. cbn [fst snd]. rewrite Hlast.
    unfold cw. rewrite Hup, Hdown. reflexivity.
Qed.

(** C3, as the code has it: [move(p)] of the Box, Line and Move strategies
    issues [clearDraw] first and only [drawSpecial] calls after it; [move(p)]
    of the Freeform strategy issues no [clearDraw] at all, only
    [setValue(p, value)]. *)
Theorem move_clears_preview_first l (f : DrawFunction) p :
  let after := StateController.handleDrawingMove (StateController.mk l f) p in
  match f with
  | Freeform self =>
      calls (StateController.state after.1) =
        calls l ++ [CSetValue p (DrawFreeform.value self)]
  | _ =>
      ∃ cells : list Vector.t,
        calls (StateController.state after.1) =
          calls l ++ CClearDraw :: (CDrawSpecial <$> cells)
  end.
Proof.
  cbv zeta. unfold StateController.handleDrawingMove.
  destruct f as [b|ln|fr|m];
    cbn [StateController.drawFunction StateController.state].
  - unfold DrawBox.move. cbn [DrawBox.startPosition].
    destruct (DrawBox.startPosition b) as [A|];
      cbn [fst snd StateController.state].
    + exists (line_cells A p true ++ line_cells A p false).
      rewrite !drawLine_calls. simpl. rewrite fmap_app, <- !app_assoc. reflexivity.
    + exists []. reflexivity.
  - unfold DrawLine.move. destruct (DrawLine.startPosition ln) as [A|];
      cbn [fst snd StateController.state].
    + eexists. rewrite drawLine_calls. simpl. rewrite <- app_assoc. reflexivity.
    + exists []. reflexivity.
  - reflexivity.
  - unfold DrawMove.move. cbn [fst snd StateController.state].
    destruct (move_ends_calls (default [] (DrawMove.ends m)) p (clearDraw l))
      as [cells ->].
    exists cells. simpl. rewrite <- app_assoc. reflexivity.
Qed.

(** C10: a freshly constructed controller holds the Box strategy, and a
    press at [A], a move to [B] and a release, with no mode selected in
    between, draw the box spanned by [A] and [B] and commit it: the move
    clears the preview and marks exactly the cells of the outline of the
    rectangle, and the release adds the one [commitDraw]. *)
Theorem initial_strategy_is_box (fuel : nat) (st : St) l A B C :
  StateController.drawFunction (StateController.new st) = Box DrawBox.new ∧
  (∃ c1 c2 c3,
    StateController.handleDrawingPress fuel (StateController.new st) A = Some (c1, Normal) ∧
    StateController.handleDrawingMove c1 B = (c2, Normal) ∧
    StateController.handleDrawingRelease c2 C = (c3, Normal) ∧
    StateController.drawFunction c1 = Box (DrawBox.mk (Some A) None) ∧
    StateController.state c1 = st ∧
    StateController.state c2 =
      (DrawBox.move (DrawBox.mk (Some A) None) B st).1.2 ∧
    StateController.state c2 =
      drawLine (drawLine (clearDraw st) A B true) A B false ∧
    StateController.state c3 = commitDraw (StateController.state c2)) ∧
  ∃ d1 d2 d3,
    StateController.handleDrawingPress fuel (StateController.new l) A = Some (d1, Normal) ∧
    StateController.handleDrawingMove d1 B = (d2, Normal) ∧
    StateController.handleDrawingRelease d2 C = (d3, Normal) ∧
    calls (StateController.state d1) = calls l ∧
    calls (StateController.state d2) =
      calls l ++ CClearDraw ::
        (CDrawSpecial <$> (line_cells A B true ++ line_cells A B false)) ∧
    (∀ q, q ∈ preview (calls (StateController.state d2)) ↔ on_outline A B q) ∧
    calls (StateController.state d3) = calls (StateController.state d2) ++ [CCommitDraw] ∧
    (∀ q, q ∈ preview (calls (StateController.state d3)) ↔ on_outline A B q).
Proof.
  split; [reflexivity|]. split.
  { do 3 eexists. repeat split. }
  exists (StateController.mk l (Box (DrawBox.mk (Some A) None))).
  exists (StateController.mk (drawLine (drawLine (clearDraw l) A B true) A B false)
            (Box (DrawBox.mk (Some A) (Some B)))).
  exists (StateController.mk
            (commitDraw (drawLine (drawLine (clearDraw l) A B true) A B false))
            (Box (DrawBox.mk (Some A) (Some B)))).
  split; [reflexivity|]. split; [reflexivity|]. split; [reflexivity|].
  split; [reflexivity|]. cbn [StateController.state].
  assert (Hcalls :
    calls (drawLine (drawLine (clearDraw l) A B true) A B false) =
    calls l ++ CClearDraw ::
      (CDrawSpecial <$> (line_cells A B true ++ line_cells A B false))).
  { rewrite !drawLine_calls. cbn. by rewrite fmap_app, <- !app_assoc. }
  assert (Hmem : ∀ q, q ∈ (list_to_set (line_cells A B true ++ line_cells A B false)
                            : gset Vector.t) ↔ on_outline A B q).
  { intros q. rewrite elem_of_list_to_set, elem_of_app, !elem_of_line_cells.
    unfold on_outline, corner. destruct q, A, B. cbn. lia. }
  split; [exact Hcalls|].
  split; [intros q; by rewrite Hcalls, preview_after_clear|].
  split; [reflexivity|].
  intros q. cbn [calls commitDraw Logged_ops].
  rewrite Hcalls, preview_app, preview_after_clear. cbn. apply Hmem.
Qed.

End LoggedFacts.

Section TraceFacts.

Context {St : Type} `{StateOps St}.
Implicit Types (st : St) (p d r : Vector.t).

Lemma steps_0 p d : Vector.steps p d 0 = p.
Proof. destruct p. unfold Vector.steps. simpl. f_equal; lia. Qed.

Lemma add_steps p d k : Vector.add (Vector.steps p d k) d = Vector.steps p d (S k).
Proof. unfold Vector.add, Vector.steps. simpl. f_equal; lia. Qed.

Lemma clone_id p : Vector.clone p = p.
Proof. by destruct p. Qed.

(** The exit test of the loop is the negation of [straight]. *)
Lemma exit_test_straight (c : Context.t) :
  negb (Context.left c && Context.right c && negb (Context.up c) && negb (Context.down c)) &&
  negb (negb (Context.left c) && negb (Context.right c) && Context.up c && Context.down c) =
  negb (DrawMove.straight c).
Proof. unfold DrawMove.straight. by rewrite negb_orb. Qed.

Lemma stops_at_here st p d i :
  isSpecial st (Vector.steps p d (S i)) = false → ∀ k, stops_at st p d i k ↔ k = i.
Proof.
  intros Hnext k. unfold stops_at. split.
  - intros (Hik & Hsp & _ & _). destruct (decide (k = i)) as [|Hne]; [done|].
    rewrite Hsp in Hnext by lia. done.
  - intros ->. split; [lia|]. split; [intros; lia|]. split; [intros; lia|]. by left.
Qed.

Lemma stops_at_corner st p d i :
  isSpecial st (Vector.steps p d (S i)) = true →
  DrawMove.straight (getContext st (Vector.steps p d (S i))) = false →
  ∀ k, stops_at st p d i k ↔ k = S i.
Proof.
  intros Hsp Hnst k. unfold stops_at. split.
  - intros (Hik & _ & Hstr & Hstop).
    destruct (decide (k = i)) as [->|Hne].
    { destruct Hstop as [Hstop|[Hstop _]]; [congruence | lia]. }
    destruct (decide (k = S i)) as [|Hne']; [done|].
    rewrite Hstr in Hnst by lia. done.
  - intros ->. split; [lia|]. split.
    { intros j Hj. by replace j with (S i) by lia. }
    split; [intros; lia|]. right. split; [lia | done].
Qed.

Lemma stops_at_step st p d i :
  isSpecial st (Vector.steps p d (S i)) = true →
  DrawMove.straight (getContext st (Vector.steps p d (S i))) = true →
  ∀ k, stops_at st p d i k ↔ stops_at st p d (S i) k.
Proof.
  intros Hsp Hstr k. unfold stops_at. split.
  - intros (Hik & Hsps & Hstrs & Hstop).
    assert (k ≠ i).
    { intros ->. destruct Hstop as [Hstop|[Hstop _]]; [congruence | lia]. }
    split; [lia|]. split; [intros; apply Hsps; lia|].
    split; [intros; apply Hstrs; lia|].
    destruct Hstop as [Hstop|[Hlt Hstop]]; [by left|]. right. split; [|done].
    destruct (decide (k = S i)) as [->|]; [congruence | lia].
  - intros (Hik & Hsps & Hstrs & Hstop).
    split; [lia|]. split.
    { intros j Hj. destruct (decide (j = S i)) as [->|]; [done | apply Hsps; lia]. }
    split.
    { intros j Hj. destruct (decide (j = S i)) as [->|]; [done | apply Hstrs; lia]. }
    destruct Hstop as [Hstop|[Hlt Hstop]]; [by left|]. right. split; [lia | done].
Qed.

(** The loop of [followLine], started at step [i], returns the cell of the
    step at which it stops, provided the fuel reaches that far: one
    iteration per step, and one more to see a cell that is not special. *)
Lemma followLine_loop_spec fuel st p d i r :
  DrawMove.followLine_loop fuel st (Vector.steps p d i) d = Some r ↔
  ∃ k, r = Vector.steps p d k ∧ stops_at st p d i k ∧
       ((k < i + fuel)%nat ∨
        ((k ≤ i + fuel)%nat ∧ (i < k)%nat ∧
         DrawMove.straight (getContext st (Vector.steps p d k)) = false)).
Proof.
  revert i. induction fuel as [|fuel IH]; intros i.
  - simpl. split; [done|]. intros (k & _ & (Hik & _) & Hfuel). lia.
  - cbn [DrawMove.followLine_loop]. rewrite add_steps, exit_test_straight.
    destruct (isSpecial st (Vector.steps p d (S i))) eqn:Hsp; cbn [negb].
    + destruct (DrawMove.straight (getContext st (Vector.steps p d (S i)))) eqn:Hstr;
        cbn [negb].
      * rewrite IH. setoid_rewrite (stops_at_step st p d i Hsp Hstr).
        split; intros (k & Hr & Hst & Hfuel); exists k; (split; [done|]);
          (split; [done|]).
        -- destruct Hfuel as [?|(? & ? & ?)]; [left; lia | right].
           split; [lia|]. split; [lia | done].
        -- destruct Hst as [Hik _].
           destruct Hfuel as [?|(? & ? & Hnst)]; [left; lia | right].
           split; [lia|]. split; [|done].
           destruct (decide (k = S i)) as [->|]; [congruence | lia].
      * setoid_rewrite (stops_at_corner st p d i Hsp Hstr). split.
        -- intros [= <-]. exists (S i). split; [done|]. split; [done|].
           right. split; [lia|]. split; [lia | done].
        -- intros (k & -> & -> & _). done.
    + setoid_rewrite (stops_at_here st p d i Hsp). split.
      * intros [= <-]. exists i. split; [done|]. split; [done|]. left. lia.
      * intros (k & -> & -> & _). done.
Qed.

Lemma followLine_spec fuel st p d r :
  DrawMove.followLine fuel st p d = Some r ↔
  ∃ k, r = Vector.steps p d k ∧ stops_at st p d 0 k ∧
       ((k < fuel)%nat ∨
        ((k ≤ fuel)%nat ∧ (0 < k)%nat ∧
         DrawMove.straight (getContext st (Vector.steps p d k)) = false)).
Proof.
  unfold DrawMove.followLine. rewrite clone_id.
  rewrite <- (steps_0 p d) at 1. apply followLine_loop_spec.
Qed.

(** More fuel does not change a result. *)
Lemma followLine_mono fuel fuel' st p d r :
  (fuel ≤ fuel')%nat →
  DrawMove.followLine fuel st p d = Some r → DrawMove.followLine fuel' st p d = Some r.
Proof.
  intros Hle. rewrite !followLine_spec. intros (k & Hr & Hst & Hfuel).
  exists k. split; [done|]. split; [done|].
  destruct Hfuel as [?|(? & ? & ?)]; [left; lia | right].
  split; [lia|]. split; [lia | done].
Qed.

Lemma steps_1 p d : Vector.steps p d 1 = Vector.add p d.
Proof. by rewrite <- add_steps, steps_0. Qed.

Lemma steps_eq_start p d (k : nat) :
  Vector.x d ≠ 0 ∨ Vector.y d ≠ 0 → Vector.steps p d k = p ↔ k = 0%nat.
Proof.
  intros Hd. destruct p as [px py]. unfold Vector.steps. cbn.
  rewrite Vector_mk_eq. split; [|intros ->; lia].
  intros [Hx Hy]. destruct (decide (k = 0%nat)) as [|Hk]; [done|]. nia.
Qed.

Lemma direction_nonzero d :
  d ∈ DrawMove.directions → Vector.x d ≠ 0 ∨ Vector.y d ≠ 0.
Proof.
  unfold DrawMove.directions. rewrite !elem_of_cons, elem_of_nil.
  intros [->|[->|[->|[->|[]]]]]; cbn; lia.
Qed.

(** Where [followLine] ends: on the ray, at the start exactly when the
    adjacent cell is not special, and otherwise on a special cell. *)
Lemma followLine_result fuel st p d r :
  DrawMove.followLine fuel st p d = Some r →
  ∃ k : nat, r = Vector.steps p d k ∧
    (k = 0%nat ↔ isSpecial st (Vector.add p d) = false) ∧
    ((0 < k)%nat → isSpecial st r = true).
Proof.
  rewrite followLine_spec. intros (k & -> & (_ & Hsp & _ & Hstop) & _).
  exists k. split; [done|]. rewrite <- steps_1. split; [split|].
  - intros ->. destruct Hstop as [?|[? _]]; [done | lia].
  - intros Hblocked. destruct (decide (k = 0%nat)) as [|Hk]; [done|].
    rewrite Hsp in Hblocked by lia. done.
  - intros Hk. apply Hsp. lia.
Qed.

(** C1, as the code has it: [followLine(p, d)] steps onto the next cell as
    long as that cell is special, and goes on only while the cell it has just
    reached has a straight Context.  It returns the cell [k] steps from [p]
    exactly when the cells of the steps [1 .. k] are special, those of the
    steps [1 .. k-1] are straight, and either the next cell is not special
    (the cell reached so far is returned: the start, or a straight cell), or
    the cell of step [k >= 1] is special but not straight (a branch, corner
    or dead end: that cell itself is returned, so it is never crossed).
    Whenever such a [k] exists the loop returns: [k] iterations reach a cell
    that is not straight, one more sees a cell that is not special. *)
Theorem followLine_stops fuel st p d r :
  DrawMove.followLine fuel st p d = Some r ↔
  ∃ k : nat,
    r = Vector.steps p d k ∧
    (∀ j, (1 ≤ j ≤ k)%nat → isSpecial st (Vector.steps p d j) = true) ∧
    (∀ j, (1 ≤ j < k)%nat →
          DrawMove.straight (getContext st (Vector.steps p d j)) = true) ∧
    ((isSpecial st (Vector.steps p d (S k)) = false ∧ (k < fuel)%nat) ∨
     ((1 ≤ k ≤ fuel)%nat ∧
      DrawMove.straight (getContext st (Vector.steps p d k)) = false)).
Proof.
  rewrite followLine_spec. unfold stops_at.
  split; intros (k & Hr & Hrest); exists k; (split; [done|]).
  - destruct Hrest as ((_ & Hsp & Hstr & Hstop) & Hfuel).
    split; [intros j Hj; apply Hsp; lia|].
    split; [intros j Hj; apply Hstr; lia|].
    destruct Hfuel as [?|(? & ? & ?)]; [|right; split; [lia | done]].
    destruct Hstop as [?|[? ?]]; [left; done | right; split; [lia | done]].
  - destruct Hrest as (Hsp & Hstr & Hstop).
    split.
    + split; [lia|].
      split; [intros j Hj; apply Hsp; lia|].
      split; [intros j Hj; apply Hstr; lia|].
      destruct Hstop as [[? ?]|[? ?]]; [left; done | right; split; [lia | done]].
    + destruct Hstop as [[? ?]|[? ?]]; [left; done | right].
      split; [lia|]. split; [lia | done].
Qed.

End TraceFacts.

(** *** The loops of [DrawMove.start] *)

Section ForIn.

Context {A S : Type}.
Implicit Types (l : list A) (f g : S → A → option S).

Lemma for_in_mono l f g s r :
  (∀ s a s', a ∈ l → f s a = Some s' → g s a = Some s') →
  for_in l f s = Some r → for_in l g s = Some r.
Proof.
  revert s. induction l as [|a l IH]; intros s Hfg; [done|].
  cbn [for_in]. destruct (f s a) as [s'|] eqn:Hf; [|done].
  rewrite (Hfg s a s') by (done || set_solver). cbn.
  apply IH. intros ? ? ? ?. apply Hfg. set_solver.
Qed.

Lemma for_in_ext l f g s :
  (∀ s a, a ∈ l → f s a = g s a) → for_in l f s = for_in l g s.
Proof.
  revert s. induction l as [|a l IH]; intros s Hfg; [done|].
  cbn [for_in]. rewrite (Hfg s a) by set_solver.
  destruct (g s a) as [s'|]; [|done]. cbn.
  apply IH. intros ? ? ?. apply Hfg. set_solver.
Qed.

Lemma for_in_is_Some l f s :
  (∀ s a, a ∈ l → is_Some (f s a)) → is_Some (for_in l f s).
Proof.
  revert s. induction l as [|a l IH]; intros s Hf; [by eexists|].
  cbn [for_in]. destruct (Hf s a) as [s' ->]; [set_solver|]. cbn.
  apply IH. intros ? ? ?. apply Hf. set_solver.
Qed.

End ForIn.

(** A loop whose body only pushes onto the array: the array it starts from
    is a prefix of the result. *)
Lemma for_in_push {A E : Type} (l : list A) (f : list E → A → option (list E)) :
  (∀ acc a, f acc a = (acc ++.) <$> f [] a) →
  ∀ acc, for_in l f acc = (acc ++.) <$> for_in l f [].
Proof.
  intros Hf. induction l as [|a l IH]; intros acc.
  - cbn. by rewrite app_nil_r.
  - cbn [for_in]. rewrite (Hf acc a). destruct (f [] a) as [n|]; [|done]. cbn.
    rewrite (IH (acc ++ n)), (IH n).
    destruct (for_in l f []) as [m|]; [|done]. cbn. by rewrite app_assoc.
Qed.

Lemma for_in_push_cons {A E : Type} (a : A) (l : list A)
    (f : list E → A → option (list E)) :
  (∀ acc a, f acc a = (acc ++.) <$> f [] a) →
  for_in (a :: l) f [] = n ← f [] a; m ← for_in l f []; Some (n ++ m).
Proof.
  intros Hf. cbn [for_in]. destruct (f [] a) as [n|]; [|done]. cbn.
  rewrite (for_in_push l f Hf n). by destruct (for_in l f []).
Qed.

Section StartFacts.

Context {St : Type} `{StateOps St}.
Implicit Types (st : St) (p d di dj position midPoint : Vector.t).
Implicit Types (ends new : list DrawEnd.t) (clockwise : bool).

#[local] Arguments for_in : simpl never.

Lemma start_inner_push fuel st di midPoint clockwise ends dj :
  DrawMove.start_inner fuel st di midPoint clockwise ends dj =
  (ends ++.) <$> DrawMove.start_inner fuel st di midPoint clockwise [] dj.
Proof.
  unfold DrawMove.start_inner.
  destruct (Vector.length_is_zero (Vector.add di dj)); [cbn; by rewrite app_nil_r|].
  destruct (DrawMove.followLine fuel st midPoint dj) as [e|]; [|done]. cbn.
  destruct (Vector.equals midPoint e); cbn; by rewrite ?app_nil_r.
Qed.

Lemma start_outer_push fuel st position ends di :
  DrawMove.start_outer fuel st position ends di =
  (ends ++.) <$> DrawMove.start_outer fuel st position [] di.
Proof.
  unfold DrawMove.start_outer.
  destruct (DrawMove.followLine fuel st position di) as [m|]; [|done]. cbn.
  destruct (Vector.equals position m); [cbn; by rewrite app_nil_r|].
  destruct (_ =? 1); [done|].
  apply for_in_push. intros. apply start_inner_push.
Qed.

(** One iteration of the inner loop pushes at most one DrawEnd, and none for
    the direction opposite to the first hop. *)
Lemma start_inner_length fuel st di midPoint clockwise dj new :
  DrawMove.start_inner fuel st di midPoint clockwise [] dj = Some new →
  (length new ≤ if Vector.length_is_zero (Vector.add di dj) then 0 else 1)%nat ∧
  Forall (fun e => DrawEnd.clockwise e = clockwise ∧
                   DrawEnd.position e ≠ midPoint ∧
                   DrawMove.followLine fuel st midPoint dj = Some (DrawEnd.position e)) new.
Proof.
  unfold DrawMove.start_inner.
  destruct (Vector.length_is_zero (Vector.add di dj)).
  { intros [= <-]. split; [done | constructor]. }
  destruct (DrawMove.followLine fuel st midPoint dj) as [e|]; [|done]. cbn.
  destruct (Vector.equals midPoint e) eqn:Heq; intros [= <-]; cbn.
  - split; [lia | constructor].
  - split; [lia|]. repeat constructor; cbn.
    intros ->. destruct midPoint. unfold Vector.equals in Heq. cbn in Heq. lia.
Qed.

Lemma inner_loop_length fuel st di midPoint clockwise (ds : list Vector.t) new :
  for_in ds (DrawMove.start_inner fuel st di midPoint clockwise) [] = Some new →
  (length new ≤
   length (filter (fun dj => Vector.length_is_zero (Vector.add di dj) = false) ds))%nat ∧
  Forall (fun e => DrawEnd.clockwise e = clockwise ∧ DrawEnd.position e ≠ midPoint ∧
                   ∃ dj, dj ∈ ds ∧ Vector.length_is_zero (Vector.add di dj) = false ∧
                     DrawMove.followLine fuel st midPoint dj = Some (DrawEnd.position e)) new.
Proof.
  revert new. induction ds as [|dj ds IH]; intros new.
  - intros [= <-]. split; [done | constructor].
  - rewrite for_in_push_cons by (intros; apply start_inner_push).
    destruct (DrawMove.start_inner fuel st di midPoint clockwise [] dj) as [n|] eqn:Hn;
      [|done].
    cbn. destruct (for_in ds _ []) as [m|]; [|done]. cbn. intros [= <-].
    destruct (IH m eq_refl) as [IHlen IHall].
    destruct (start_inner_length _ _ _ _ _ _ _ Hn) as [Hlen Hall].
    rewrite length_app. split.
    + destruct (Vector.length_is_zero (Vector.add di dj)) eqn:Hz.
      * rewrite decide_False by done.
        destruct n; [exact IHlen | cbn in Hlen; lia].
      * rewrite decide_True by done. cbn [length].
        apply (Nat.add_le_mono _ 1 _ _ Hlen IHlen).
    + apply Forall_app. split.
      * apply Forall_forall. intros e He.
        destruct (proj1 (Forall_forall _ _) Hall e He) as (? & ? & ?).
        split; [done|]. split; [done|]. exists dj. split; [set_solver|]. split; [|done].
        destruct (Vector.length_is_zero (Vector.add di dj)); [|done].
        destruct n; [by apply elem_of_nil in He | cbn in Hlen; lia].
      * eapply Forall_impl; [exact IHall|]. intros e (? & ? & dj' & ? & ? & ?).
        split; [done|]. split; [done|]. exists dj'. split; [set_solver | done].
Qed.

(** The test of the inner loop skips exactly the opposite direction. *)
Lemma skips_only_opposite di dj :
  Vector.length_is_zero (Vector.add di dj) = true ↔
  Vector.x dj = - Vector.x di ∧ Vector.y dj = - Vector.y di.
Proof.
  unfold Vector.length_is_zero, Vector.lengthSquared, Vector.add. cbn.
  rewrite Z.eqb_eq. split; [|intros [-> ->]; nia].
  set (a := Vector.x di + Vector.x dj). set (b := Vector.y di + Vector.y dj).
  intros Hz.
  pose proof (Z.square_nonneg a) as Ha. pose proof (Z.square_nonneg b) as Hb.
  assert (Ha0 : a * a = 0) by lia. assert (Hb0 : b * b = 0) by lia.
  apply Z.eq_mul_0 in Ha0, Hb0. subst a b. lia.
Qed.

Lemma equals_spec (a b : Vector.t) : Vector.equals a b = true ↔ a = b.
Proof.
  destruct a, b. unfold Vector.equals. cbn.
  rewrite andb_true_iff, !Z.eqb_eq, Vector_mk_eq. reflexivity.
Qed.

Lemma opposite_filter di :
  di ∈ DrawMove.directions →
  length (filter (fun dj => Vector.length_is_zero (Vector.add di dj) = false)
                 DrawMove.directions) = 3%nat.
Proof.
  unfold DrawMove.directions. rewrite !elem_of_cons, elem_of_nil.
  intros [->|[->|[->|[->|[]]]]]; reflexivity.
Qed.

(** What one direction contributes to the DrawEnds of [start]. *)
Lemma contribution_spec fuel st position di new :
  di ∈ DrawMove.directions →
  contribution fuel st position di = Some new →
  ∃ midPoint,
    DrawMove.followLine fuel st position di = Some midPoint ∧
    (midPoint = position → new = []) ∧
    (midPoint ≠ position → neighbours (getContext st midPoint) = 1 →
     new = [DrawEnd.mk midPoint (negb (Vector.x di =? 0))]) ∧
    (length new ≤ 3)%nat ∧
    Forall (fun e => DrawEnd.clockwise e = negb (Vector.x di =? 0)) new ∧
    (midPoint ≠ position → neighbours (getContext st midPoint) ≠ 1 →
     Forall (fun e => DrawEnd.position e ≠ midPoint ∧
               ∃ dj, dj ∈ DrawMove.directions ∧
                 ¬ (Vector.x dj = - Vector.x di ∧ Vector.y dj = - Vector.y di) ∧
                 DrawMove.followLine fuel st midPoint dj = Some (DrawEnd.position e)) new).
Proof.
  intros Hdi. unfold contribution, DrawMove.start_outer.
  destruct (DrawMove.followLine fuel st position di) as [m|]; [|done]. cbn [mbind option_bind].
  intros Hnew. exists m. split; [done|].
  destruct (Vector.equals position m) eqn:Heq.
  { apply equals_spec in Heq as ->. injection Hnew as <-.
    split; [done|]. split; [done|]. split; [cbn; lia|]. split; [constructor|]. done. }
  assert (Hne : m ≠ position).
  { intros ->. assert (Vector.equals position position = true) by by apply equals_spec.
    congruence. }
  split; [done|]. fold (neighbours (getContext st m)) in Hnew.
  destruct (neighbours (getContext st m) =? 1) eqn:Hn.
  { apply Z.eqb_eq in Hn. injection Hnew as <-.
    split; [done|]. split; [cbn; lia|]. split; [by repeat constructor|]. done. }
  apply Z.eqb_neq in Hn. split; [done|].
  destruct (inner_loop_length _ _ _ _ _ _ _ Hnew) as [Hlen Hall].
  rewrite (opposite_filter di Hdi) in Hlen. split; [done|]. split.
  - eapply Forall_impl; [exact Hall|]. by intros e [? _].
  - intros _ _. eapply Forall_impl; [exact Hall|].
    intros e (_ & ? & dj & ? & Hz & ?). split; [done|]. exists dj. split; [done|].
    split; [|done]. rewrite <- skips_only_opposite. congruence.
Qed.

(** The inner loop, exactly: it traces from the midpoint in every direction
    that is not skipped, in the order of [directions], and pushes the end of
    each trace that left the midpoint. *)
Lemma inner_loop_exact fuel st di midPoint clockwise (ds : list Vector.t) new :
  for_in ds (DrawMove.start_inner fuel st di midPoint clockwise) [] = Some new →
  ∃ rs : list Vector.t,
    Forall2 (fun dj r => dj ∈ ds ∧ DrawMove.followLine fuel st midPoint dj = Some r)
            (filter (fun dj => Vector.length_is_zero (Vector.add di dj) = false) ds) rs ∧
    new = (fun r => DrawEnd.mk r clockwise) <$> filter (fun r => r ≠ midPoint) rs.
Proof.
  revert new. induction ds as [|dj ds IH]; intros new.
  - intros [= <-]. exists []. split; [constructor | done].
  - rewrite filter_cons.
    rewrite for_in_push_cons by (intros; apply start_inner_push).
    destruct (DrawMove.start_inner fuel st di midPoint clockwise [] dj) as [n|] eqn:Hn;
      [|done].
    cbn [mbind option_bind].
    destruct (for_in ds (DrawMove.start_inner fuel st di midPoint clockwise) [])
      as [m|]; [|done].
    cbn [mbind option_bind]. intros [= <-].
    destruct (IH m eq_refl) as (rs & Hrs & ->).
    assert (Hrs' : Forall2
              (fun dj' r => dj' ∈ dj :: ds ∧
                            DrawMove.followLine fuel st midPoint dj' = Some r)
              (filter (fun dj' => Vector.length_is_zero (Vector.add di dj') = false) ds)
              rs).
    { eapply Forall2_impl; [exact Hrs|]. intros dj' r [? ?]. split; [set_solver | done]. }
    unfold DrawMove.start_inner in Hn.
    destruct (Vector.length_is_zero (Vector.add di dj)) eqn:Hz.
    + injection Hn as <-. rewrite decide_False by done. exists rs. split; [done|].
      reflexivity.
    + rewrite decide_True by done.
      destruct (DrawMove.followLine fuel st midPoint dj) as [e|] eqn:He; [|done].
      cbn [mbind option_bind] in Hn.
      exists (e :: rs). split.
      { constructor; [|done]. split; [set_solver | done]. }
      rewrite filter_cons.
      destruct (Vector.equals midPoint e) eqn:Heq; injection Hn as <-.
      * apply equals_spec in Heq as <-. rewrite decide_False by (intros Hne; by apply Hne).
        reflexivity.
      * rewrite decide_True; [reflexivity|].
        intros ->. by rewrite (proj2 (equals_spec midPoint midPoint) eq_refl) in Heq.
Qed.

(** What one direction contributes, exactly. *)
Lemma contribution_exact fuel st position di new :
  di ∈ DrawMove.directions →
  contribution fuel st position di = Some new →
  ∃ midPoint,
    DrawMove.followLine fuel st position di = Some midPoint ∧
    (midPoint = position → new = []) ∧
    (midPoint ≠ position → neighbours (getContext st midPoint) = 1 →
     new = [DrawEnd.mk midPoint (negb (Vector.x di =? 0))]) ∧
    (length new ≤ 3)%nat ∧
    Forall (fun e => DrawEnd.clockwise e = negb (Vector.x di =? 0)) new ∧
    (midPoint ≠ position → neighbours (getContext st midPoint) ≠ 1 →
     Forall (fun e => DrawEnd.position e ≠ midPoint ∧
               ∃ dj, dj ∈ DrawMove.directions ∧
                 ¬ (Vector.x dj = - Vector.x di ∧ Vector.y dj = - Vector.y di) ∧
                 DrawMove.followLine fuel st midPoint dj = Some (DrawEnd.position e)) new) ∧
    (midPoint = position ↔ isSpecial st (Vector.add position di) = false) ∧
    (midPoint ≠ position → neighbours (getContext st midPoint) ≠ 1 →
     ∃ rs : list Vector.t,
       length rs = 3%nat ∧
       Forall2 (fun dj r =>
                  DrawMove.followLine fuel st midPoint dj = Some r ∧
                  (r ≠ midPoint ↔ isSpecial st (Vector.add midPoint dj) = true))
               (filter (fun dj => ¬ (Vector.x dj = - Vector.x di ∧
                                     Vector.y dj = - Vector.y di))
                       DrawMove.directions) rs ∧
       new = (fun r => DrawEnd.mk r (negb (Vector.x di =? 0))) <$>
             filter (fun r => r ≠ midPoint) rs).
Proof.
  intros Hdi Hnew.
  destruct (contribution_spec fuel st position di new Hdi Hnew)
    as (m & Hm & Hnone & Hone & Hlen & Hflag & Hmany).
  exists m. do 6 (split; [done|]).
  destruct (followLine_result fuel st position di m Hm) as (k & Hmk & Hk0 & _).
  split.
  { rewrite <- Hk0, Hmk. apply steps_eq_start. by apply direction_nonzero. }
  intros Hgone Hbranch.
  unfold contribution, DrawMove.start_outer in Hnew. rewrite Hm in Hnew.
  cbn [mbind option_bind] in Hnew.
  destruct (Vector.equals position m) eqn:Heq.
  { apply equals_spec in Heq. by subst m. }
  fold (neighbours (getContext st m)) in Hnew.
  rewrite (proj2 (Z.eqb_neq _ _) Hbranch) in Hnew.
  destruct (inner_loop_exact _ _ _ _ _ _ _ Hnew) as (rs & Hrs & Hnew').
  exists rs.
  assert (Hfilter :
    filter (fun dj => ¬ (Vector.x dj = - Vector.x di ∧ Vector.y dj = - Vector.y di))
           DrawMove.directions =
    filter (fun dj => Vector.length_is_zero (Vector.add di dj) = false)
           DrawMove.directions).
  { apply list_filter_iff. intros dj. rewrite <- skips_only_opposite.
    destruct (Vector.length_is_zero (Vector.add di dj)); naive_solver. }
  split.
  { rewrite <- (Forall2_length _ _ _ Hrs). by apply opposite_filter. }
  split; [|done]. rewrite Hfilter.
  eapply Forall2_impl; [exact Hrs|]. intros dj r [Hdj Hr]. split; [done|].
  destruct (followLine_result fuel st m dj r Hr) as (k' & Hrk & Hk0' & _).
  rewrite Hrk, (steps_eq_start m dj k' (direction_nonzero dj Hdj)), Hk0'.
  destruct (isSpecial st (Vector.add m dj)); naive_solver.
Qed.

(** [start] runs the four directions in turn and concatenates what each
    contributes. *)
Lemma start_decompose fuel st (self : DrawMove.t) position :
  DrawMove.start fuel self position st =
  e1 ← contribution fuel st position (Vector.mk 1 0);
  e2 ← contribution fuel st position (Vector.mk (-1) 0);
  e3 ← contribution fuel st position (Vector.mk 0 1);
  e4 ← contribution fuel st position (Vector.mk 0 (-1));
  Some (DrawMove.mk (Some (e1 ++ e2 ++ e3 ++ e4)), st, Normal).
Proof.
  unfold DrawMove.start, DrawMove.directions, contribution.
  rewrite !for_in_push_cons by (intros; apply start_outer_push).
  destruct (DrawMove.start_outer fuel st position [] (Vector.mk 1 0)); [|done].
  destruct (DrawMove.start_outer fuel st position [] (Vector.mk (-1) 0)); [|done].
  destruct (DrawMove.start_outer fuel st position [] (Vector.mk 0 1)); [|done].
  destruct (DrawMove.start_outer fuel st position [] (Vector.mk 0 (-1))); [|done].
  change (for_in [] (DrawMove.start_outer fuel st position) []) with (Some (@nil DrawEnd.t)).
  cbn. by rewrite app_nil_r.
Qed.

(** *** Termination of the traces *)

Lemma followLine_loop_total fuel st p d i :
  (∃ k, (i ≤ k < i + fuel)%nat ∧
        (isSpecial st (Vector.steps p d (S k)) = false ∨
         DrawMove.straight (getContext st (Vector.steps p d (S k))) = false)) →
  is_Some (DrawMove.followLine_loop fuel st (Vector.steps p d i) d).
Proof.
  revert i. induction fuel as [|fuel IH]; intros i (k & Hk & Hstop); [lia|].
  cbn [DrawMove.followLine_loop]. rewrite add_steps, exit_test_straight.
  destruct (isSpecial st (Vector.steps p d (S i))) eqn:Hsp; cbn [negb]; [|by eexists].
  destruct (DrawMove.straight (getContext st (Vector.steps p d (S i)))) eqn:Hstr;
    cbn [negb]; [|by eexists].
  apply IH. exists k. split; [|done].
  destruct (decide (k = i)) as [->|]; [|lia].
  destruct Hstop; congruence.
Qed.

Lemma followLine_total fuel n st p d :
  runs_end_within st n → (n ≤ fuel)%nat → d ∈ DrawMove.directions →
  is_Some (DrawMove.followLine fuel st p d).
Proof.
  intros Hruns Hfuel Hd. unfold DrawMove.followLine. rewrite clone_id.
  rewrite <- (steps_0 p d) at 1. apply followLine_loop_total.
  destruct (Hruns p d Hd) as (k & Hk & Hstop). exists k. split; [lia | done].
Qed.

Lemma contribution_total fuel n st position di :
  runs_end_within st n → (n ≤ fuel)%nat → di ∈ DrawMove.directions →
  is_Some (contribution fuel st position di).
Proof.
  intros Hruns Hfuel Hdi. unfold contribution, DrawMove.start_outer.
  destruct (followLine_total fuel n st position di Hruns Hfuel Hdi) as [m ->].
  cbn [mbind option_bind].
  destruct (Vector.equals position m); [by eexists|].
  destruct (_ =? 1); [by eexists|].
  apply for_in_is_Some. intros ends dj Hdj. unfold DrawMove.start_inner.
  destruct (Vector.length_is_zero (Vector.add di dj)); [by eexists|].
  destruct (followLine_total fuel n st m dj Hruns Hfuel Hdj) as [e ->].
  cbn [mbind option_bind]. destruct (Vector.equals m e); by eexists.
Qed.

(** More fuel does not change the DrawEnds found. *)
Lemma start_inner_mono fuel fuel' st di midPoint clockwise ends dj new :
  (fuel ≤ fuel')%nat →
  DrawMove.start_inner fuel st di midPoint clockwise ends dj = Some new →
  DrawMove.start_inner fuel' st di midPoint clockwise ends dj = Some new.
Proof.
  intros Hle. unfold DrawMove.start_inner.
  destruct (Vector.length_is_zero (Vector.add di dj)); [done|].
  destruct (DrawMove.followLine fuel st midPoint dj) as [e|] eqn:He; [|done].
  by rewrite (followLine_mono fuel fuel' st midPoint dj e Hle He).
Qed.

Lemma start_outer_mono fuel fuel' st position ends di new :
  (fuel ≤ fuel')%nat →
  DrawMove.start_outer fuel st position ends di = Some new →
  DrawMove.start_outer fuel' st position ends di = Some new.
Proof.
  intros Hle. unfold DrawMove.start_outer.
  destruct (DrawMove.followLine fuel st position di) as [m|] eqn:Hm; [|done].
  rewrite (followLine_mono fuel fuel' st position di m Hle Hm). cbn [mbind option_bind].
  destruct (Vector.equals position m); [done|].
  destruct (_ =? 1); [done|].
  apply for_in_mono. intros ? ? ? _. by apply start_inner_mono.
Qed.

Lemma start_mono fuel fuel' st (self : DrawMove.t) position r :
  (fuel ≤ fuel')%nat →
  DrawMove.start fuel self position st = Some r →
  DrawMove.start fuel' self position st = Some r.
Proof.
  intros Hle. unfold DrawMove.start.
  destruct (for_in DrawMove.directions (DrawMove.start_outer fuel st position) [])
    as [ends|] eqn:Hends; [|done].
  erewrite for_in_mono; [done | | exact Hends].
  intros ? ? ? _. by apply start_outer_mono.
Qed.

End StartFacts.

(** *** Grids that read alike *)

Section Agree.

Context {St St' : Type} `{StateOps St} `{StateOps St'} (st : St) (st' : St').
Hypothesis same_special : ∀ p, isSpecial st p = isSpecial st' p.
Hypothesis same_context : ∀ p, getContext st p = getContext st' p.

Lemma followLine_agree fuel (p d : Vector.t) :
  DrawMove.followLine fuel st p d = DrawMove.followLine fuel st' p d.
Proof.
  unfold DrawMove.followLine. generalize (Vector.clone p). clear p.
  induction fuel as [|fuel IH]; intros e; [done|].
  cbn [DrawMove.followLine_loop]. rewrite same_special, same_context.
  destruct (isSpecial st' (Vector.add e d)); cbn [negb]; [|done].
  by rewrite IH.
Qed.

Lemma start_ends_agree fuel (position : Vector.t) :
  for_in DrawMove.directions (DrawMove.start_outer fuel st position) [] =
  for_in DrawMove.directions (DrawMove.start_outer fuel st' position) [].
Proof.
  apply for_in_ext. intros ends di _. unfold DrawMove.start_outer.
  rewrite followLine_agree.
  destruct (DrawMove.followLine fuel st' position di) as [m|]; [|done].
  cbn [mbind option_bind]. rewrite same_context.
  destruct (Vector.equals position m); [done|].
  destruct (_ =? 1); [done|].
  apply for_in_ext. intros ends' dj _. unfold DrawMove.start_inner.
  by rewrite followLine_agree.
Qed.

End Agree.

(** *** The reference grid *)

Lemma special_of_cells (ps : list Vector.t) (p : Vector.t) :
  isSpecial (Grid.of_cells ps) p = bool_decide (p ∈ ps).
Proof.
  unfold isSpecial, Grid.ops, Grid.special_at, Grid.of_cells. cbn [Grid.draft Grid.committed].
  rewrite bool_decide_eq_false_2 by set_solver. cbn [orb].
  destruct (list_to_map ((λ q, (q, Grid.Special)) <$> ps) !! p) as [g|] eqn:Hlook.
  - apply elem_of_list_to_map_2 in Hlook.
    apply list_elem_of_fmap in Hlook as (q & [= -> ->] & Hq).
    by rewrite bool_decide_eq_true_2.
  - apply not_elem_of_list_to_map_2 in Hlook.
    rewrite bool_decide_eq_false_2; [done|].
    intros Hp. apply Hlook. rewrite <- list_fmap_compose.
    apply list_elem_of_fmap. by exists p.
Qed.

Lemma context_of_cells (ps : list Vector.t) : context_of_neighbours (Grid.of_cells ps).
Proof. intros p. reflexivity. Qed.

(** On a grid whose special cells lie in a window around the origin, every
    trace along an axis leaves the window. *)
Lemma of_cells_runs_end (ps : list Vector.t) (N : Z) :
  0 ≤ N →
  Forall (fun q => - N ≤ Vector.x q ≤ N ∧ - N ≤ Vector.y q ≤ N) ps →
  runs_end_within (Grid.of_cells ps) (Z.to_nat (2 * N + 2)).
Proof.
  intros HN Hwin p d Hd.
  assert (Hout : ∀ q, ¬ (- N ≤ Vector.x q ≤ N ∧ - N ≤ Vector.y q ≤ N) →
                      isSpecial (Grid.of_cells ps) q = false).
  { intros q Hq. rewrite special_of_cells. apply bool_decide_eq_false_2.
    intros Hin. apply Hq. exact (proj1 (Forall_forall _ _) Hwin q Hin). }
  destruct (decide (- N ≤ Vector.x (Vector.add p d) ≤ N ∧
                    - N ≤ Vector.y (Vector.add p d) ≤ N)) as [Hin|Hnin].
  - unfold DrawMove.directions in Hd. rewrite !elem_of_cons, elem_of_nil in Hd.
    destruct p as [px py]. cbn in Hin.
    destruct Hd as [->|[->|[->|[->|[]]]]]; cbn in Hin.
    + exists (Z.to_nat (N - px)). split; [lia|]. left. apply Hout. cbn. lia.
    + exists (Z.to_nat (px + N)). split; [lia|]. left. apply Hout. cbn. lia.
    + exists (Z.to_nat (N - py)). split; [lia|]. left. apply Hout. cbn. lia.
    + exists (Z.to_nat (py + N)). split; [lia|]. left. apply Hout. cbn. lia.
  - exists 0%nat. split; [lia|]. left. apply Hout.
    destruct p, d. cbn in *. lia.
Qed.

(** C2, as the code has it: on a grid whose traces end, [start] stores the
    DrawEnds contributed by the four directions in turn, between 0 and 12 in
    all.  A direction makes progress exactly when the cell next to the pivot
    is special.  A direction that made no progress contributes none; one
    whose midpoint has exactly one special neighbour contributes exactly one;
    any other contributes, in the order of [directions] and skipping only
    the exact opposite of the first hop, exactly one DrawEnd for each of the
    three remaining directions whose trace leaves the midpoint (which it does
    exactly when the cell next to the midpoint is special): the end of that
    trace, with the [clockwise] flag of the first hop. *)
Theorem start_collects_at_most_twelve {St : Type} `{StateOps St}
    (fuel n : nat) (st : St) (self : DrawMove.t) (position : Vector.t) :
  runs_end_within st n → (n ≤ fuel)%nat →
  ∃ e1 e2 e3 e4 : list DrawEnd.t,
    DrawMove.start fuel self position st =
      Some (DrawMove.mk (Some (e1 ++ e2 ++ e3 ++ e4)), st, Normal) ∧
    contribution fuel st position (Vector.mk 1 0) = Some e1 ∧
    contribution fuel st position (Vector.mk (-1) 0) = Some e2 ∧
    contribution fuel st position (Vector.mk 0 1) = Some e3 ∧
    contribution fuel st position (Vector.mk 0 (-1)) = Some e4 ∧
    (0 ≤ length (e1 ++ e2 ++ e3 ++ e4) ≤ 12)%nat ∧
    (∀ di e, di ∈ DrawMove.directions → contribution fuel st position di = Some e →
       ∃ midPoint,
         DrawMove.followLine fuel st position di = Some midPoint ∧
         (midPoint = position → e = []) ∧
         (midPoint ≠ position → neighbours (getContext st midPoint) = 1 →
          e = [DrawEnd.mk midPoint (negb (Vector.x di =? 0))]) ∧
         (length e ≤ 3)%nat ∧
         Forall (fun en => DrawEnd.clockwise en = negb (Vector.x di =? 0)) e ∧
         (midPoint ≠ position → neighbours (getContext st midPoint) ≠ 1 →
          Forall (fun en => DrawEnd.position en ≠ midPoint ∧
                    ∃ dj, dj ∈ DrawMove.directions ∧
                      ¬ (Vector.x dj = - Vector.x di ∧ Vector.y dj = - Vector.y di) ∧
                      DrawMove.followLine fuel st midPoint dj =
                        Some (DrawEnd.position en)) e) ∧
         (midPoint = position ↔ isSpecial st (Vector.add position di) = false) ∧
         (midPoint ≠ position → neighbours (getContext st midPoint) ≠ 1 →
          ∃ rs : list Vector.t,
            length rs = 3%nat ∧
            Forall2 (fun dj r =>
                       DrawMove.followLine fuel st midPoint dj = Some r ∧
                       (r ≠ midPoint ↔ isSpecial st (Vector.add midPoint dj) = true))
                    (filter (fun dj => ¬ (Vector.x dj = - Vector.x di ∧
                                          Vector.y dj = - Vector.y di))
                            DrawMove.directions) rs ∧
            e = (fun r => DrawEnd.mk r (negb (Vector.x di =? 0))) <$>
                filter (fun r => r ≠ midPoint) rs)) ∧
    (∀ di dj, Vector.length_is_zero (Vector.add di dj) = true ↔
              Vector.x dj = - Vector.x di ∧ Vector.y dj = - Vector.y di).
Proof.
  intros Hruns Hfuel.
  assert (Hd1 : Vector.mk 1 0 ∈ DrawMove.directions) by (unfold DrawMove.directions; set_solver).
  assert (Hd2 : Vector.mk (-1) 0 ∈ DrawMove.directions) by (unfold DrawMove.directions; set_solver).
  assert (Hd3 : Vector.mk 0 1 ∈ DrawMove.directions) by (unfold DrawMove.directions; set_solver).
  assert (Hd4 : Vector.mk 0 (-1) ∈ DrawMove.directions) by (unfold DrawMove.directions; set_solver).
  destruct (contribution_total fuel n st position _ Hruns Hfuel Hd1) as [e1 He1].
  destruct (contribution_total fuel n st position _ Hruns Hfuel Hd2) as [e2 He2].
  destruct (contribution_total fuel n st position _ Hruns Hfuel Hd3) as [e3 He3].
  destruct (contribution_total fuel n st position _ Hruns Hfuel Hd4) as [e4 He4].
  exists e1, e2, e3, e4.
  split; [rewrite start_decompose, He1, He2, He3, He4; reflexivity|].
  do 4 (split; [done|]).
  split.
  - destruct (contribution_spec _ _ _ _ _ Hd1 He1) as (_ & _ & _ & _ & ? & _).
    destruct (contribution_spec _ _ _ _ _ Hd2 He2) as (_ & _ & _ & _ & ? & _).
    destruct (contribution_spec _ _ _ _ _ Hd3 He3) as (_ & _ & _ & _ & ? & _).
    destruct (contribution_spec _ _ _ _ _ Hd4 He4) as (_ & _ & _ & _ & ? & _).
    rewrite !length_app. lia.
  - split; [|apply skips_only_opposite].
    intros di e Hdi He. exact (contribution_exact _ _ _ _ _ Hdi He).
Qed.

Lemma start_collects_at_most_twelve_witness :
  runs_end_within plus_grid 6 ∧ (6 ≤ 6)%nat ∧
  ∃ ends : list DrawEnd.t,
    DrawMove.start 6 DrawMove.new (Vector.mk 0 0) plus_grid =
      Some (DrawMove.mk (Some ends), plus_grid, Normal) ∧
    (length ends ≤ 12)%nat.
Proof.
  assert (Hruns : runs_end_within plus_grid 6).
  { apply (of_cells_runs_end _ 2); [lia|]. repeat constructor; cbn; lia. }
  split; [exact Hruns|]. split; [lia|].
  destruct (start_collects_at_most_twelve 6 6 plus_grid DrawMove.new (Vector.mk 0 0)
              Hruns (le_n 6)) as (e1 & e2 & e3 & e4 & Hstart & _ & _ & _ & _ & Hlen & _).
  exists (e1 ++ e2 ++ e3 ++ e4). split; [exact Hstart | lia].
Defined.

(** C2 as stated (at most 8 DrawEnds, one or two per direction) fails: around
    the centre of [plus_grid] every first hop ends on a junction from which
    three directions make progress, and [start] stores 12 DrawEnds. *)
Lemma start_plus_grid_twelve_ends :
  ∃ ends : list DrawEnd.t,
    DrawMove.start 2 DrawMove.new (Vector.mk 0 0) plus_grid =
      Some (DrawMove.mk (Some ends), plus_grid, Normal) ∧
    length ends = 12%nat ∧ ¬ (length ends ≤ 8)%nat ∧
    contribution 2 plus_grid (Vector.mk 0 0) (Vector.mk 1 0) =
      Some [DrawEnd.mk (Vector.mk 2 0) true; DrawEnd.mk (Vector.mk 1 1) true;
            DrawEnd.mk (Vector.mk 1 (-1)) true].
Proof.
  eexists. split; [vm_compute; reflexivity|].
  split; [reflexivity|]. split; [cbn; lia | vm_compute; reflexivity].
Qed.

(** C4: on a grid whose only special cells are those of row 5, columns 2 to
    4, the Context of [(2,5)] has only [right] set, [start((2,5))] stores the
    single DrawEnd [(4,5)] with [clockwise = true], and [move((2,8))] then
    clears the preview and runs [drawLine((2,8), (4,5), true)], whose corner
    (the bend) is the cell [(4,8)]. *)
Theorem move_scenario_horizontal_run {St : Type} `{StateOps St}
    (fuel : nat) (st : St) (self : DrawMove.t) :
  (∀ p, isSpecial st p = true ↔ Vector.y p = 5 ∧ 2 ≤ Vector.x p ≤ 4) →
  context_of_neighbours st →
  (2 ≤ fuel)%nat →
  let started := DrawMove.mk (Some [DrawEnd.mk (Vector.mk 4 5) true]) in
  let moved := DrawMove.move started (Vector.mk 2 8) (fresh st) in
  getContext st (Vector.mk 2 5) = Context.mk false true false false ∧
  DrawMove.start fuel self (Vector.mk 2 5) (fresh st) = Some (started, fresh st, Normal) ∧
  moved = (started,
           drawLine (clearDraw (fresh st)) (Vector.mk 2 8) (Vector.mk 4 5) true,
           Normal) ∧
  calls moved.1.2 =
    CClearDraw ::
    (CDrawSpecial <$>
       [Vector.mk 3 8; Vector.mk 4 8; Vector.mk 4 6; Vector.mk 4 7; Vector.mk 4 8;
        Vector.mk 2 8; Vector.mk 4 5; Vector.mk 4 8]) ∧
  last (calls moved.1.2) = Some (CDrawSpecial (Vector.mk 4 8)) ∧
  Vector.mk 4 8 ∈ preview (calls moved.1.2).
Proof.
  intros Hrun Hctx Hfuel. cbv zeta.
  assert (Hs : ∀ p, isSpecial (fresh st) p = isSpecial horizontal_run p).
  { intros p. change (isSpecial (fresh st) p) with (isSpecial st p).
    unfold horizontal_run. rewrite special_of_cells.
    destruct (isSpecial st p) eqn:Hp.
    - apply Hrun in Hp. symmetry. apply bool_decide_eq_true_2.
      destruct p as [px py]. cbn in Hp. rewrite !elem_of_cons, !Vector_mk_eq. lia.
    - symmetry. apply bool_decide_eq_false_2. intros Hin.
      assert (isSpecial st p = true); [|congruence].
      apply Hrun. destruct p as [px py]. cbn.
      rewrite !elem_of_cons, !Vector_mk_eq, elem_of_nil in Hin. lia. }
  assert (Hc : ∀ p, getContext (fresh st) p = getContext horizontal_run p).
  { intros p. change (getContext (fresh st) p) with (getContext st p).
    rewrite Hctx, (context_of_cells _ p : getContext horizontal_run p = _).
    change (isSpecial st) with (isSpecial (fresh st)). by rewrite !Hs. }
  split; [exact (Hc (Vector.mk 2 5))|].
  split.
  { apply (start_mono 2 fuel); [done|]. unfold DrawMove.start.
    rewrite (start_ends_agree (fresh st) horizontal_run Hs Hc).
    reflexivity. }
  assert (Hcalls :
    calls (drawLine (clearDraw (fresh st)) (Vector.mk 2 8) (Vector.mk 4 5) true) =
    CClearDraw ::
    (CDrawSpecial <$>
       [Vector.mk 3 8; Vector.mk 4 8; Vector.mk 4 6; Vector.mk 4 7; Vector.mk 4 8;
        Vector.mk 2 8; Vector.mk 4 5; Vector.mk 4 8])).
  { rewrite drawLine_calls. reflexivity. }
  split; [reflexivity|].
  change (DrawMove.move _ _ _).1.2
    with (drawLine (clearDraw (fresh st)) (Vector.mk 2 8) (Vector.mk 4 5) true).
  split; [exact Hcalls|]. rewrite Hcalls.
  split; [reflexivity|].
  match goal with
  | |- _ ∈ preview (CClearDraw :: (CDrawSpecial <$> ?cs)) =>
      rewrite (preview_after_clear [] cs : preview (CClearDraw :: _) = _)
  end.
  set_solver.
Qed.

Lemma move_scenario_horizontal_run_witness :
  (∀ p, isSpecial horizontal_run p = true ↔ Vector.y p = 5 ∧ 2 ≤ Vector.x p ≤ 4) ∧
  context_of_neighbours horizontal_run ∧ (2 ≤ 2)%nat ∧
  DrawMove.start 2 DrawMove.new (Vector.mk 2 5) (fresh horizontal_run) =
    Some (DrawMove.mk (Some [DrawEnd.mk (Vector.mk 4 5) true]),
          fresh horizontal_run, Normal).
Proof.
  assert (Hrun : ∀ p, isSpecial horizontal_run p = true ↔
                      Vector.y p = 5 ∧ 2 ≤ Vector.x p ≤ 4).
  { intros [px py]. unfold horizontal_run.
    rewrite special_of_cells, bool_decide_eq_true.
    rewrite !elem_of_cons, !Vector_mk_eq, elem_of_nil. cbn. lia. }
  split; [exact Hrun|]. split; [apply context_of_cells|]. split; [lia|].
  apply (move_scenario_horizontal_run 2 horizontal_run DrawMove.new Hrun
           (context_of_cells _) (le_n 2)).
Defined.

(** C6 as stated (the scan leaves out both bounds) fails: between [(0,0)] and
    [(2,0)] the horizontal scan also marks the cell at [x = hX2 = 2]. *)
Lemma drawLine_hscan_marks_upper_bound :
  ¬ (∀ p : Vector.t,
       CDrawSpecial p ∈
         calls (drawLine_hloop (fresh empty_grid) (Z.min 0 2) (Z.max 0 2) 0) ↔
       Vector.y p = 0 ∧ Z.min 0 2 < Vector.x p < Z.max 0 2).
Proof.
  intros Hclaim. destruct (Hclaim (Vector.mk 2 0)) as [Hin _].
  assert (Hcalls : calls (drawLine_hloop (fresh empty_grid) (Z.min 0 2) (Z.max 0 2) 0) =
                   [CDrawSpecial (Vector.mk 1 0); CDrawSpecial (Vector.mk 2 0)])
    by (vm_compute; reflexivity).
  rewrite Hcalls in Hin. simpl in Hin.
  assert (Hmem : CDrawSpecial (Vector.mk 2 0) ∈
                 [CDrawSpecial (Vector.mk 1 0); CDrawSpecial (Vector.mk 2 0)])
    by (apply elem_of_cons; right; apply elem_of_cons; left; reflexivity).
  apply Hin in Hmem. lia.
Qed.

Lemma drawLine_orientations_witness :
  (Vector.x (Vector.mk 0 0) = Vector.x (Vector.mk 3 0) ∨
   Vector.y (Vector.mk 0 0) = Vector.y (Vector.mk 3 0)) ∧
  preview (calls (drawLine (fresh empty_grid) (Vector.mk 0 0) (Vector.mk 3 0) true)) =
  preview (calls (drawLine (fresh empty_grid) (Vector.mk 0 0) (Vector.mk 3 0) false)).
Proof.
  split; [right; reflexivity|].
  apply (drawLine_orientations (fresh empty_grid) (Vector.mk 0 0) (Vector.mk 3 0)).
  right; reflexivity.
Defined.

(** C1 as stated (the last straight cell is returned when the next cell is a
    branch or corner) fails: tracing the horizontal run from [(2,5)] to the
    right, the last straight cell is [(3,5)], the next cell [(4,5)] is special
    but not straight, and it is [(4,5)] that is returned. *)
Lemma followLine_returns_cell_not_straight :
  DrawMove.followLine 2 horizontal_run (Vector.mk 2 5) (Vector.mk 1 0) =
    Some (Vector.mk 4 5) ∧
  DrawMove.straight (getContext horizontal_run (Vector.mk 3 5)) = true ∧
  isSpecial horizontal_run (Vector.mk 4 5) = true ∧
  DrawMove.straight (getContext horizontal_run (Vector.mk 4 5)) = false ∧
  DrawMove.followLine 2 horizontal_run (Vector.mk 2 5) (Vector.mk 1 0) ≠
    Some (Vector.mk 3 5).
Proof.
  assert (Hret : DrawMove.followLine 2 horizontal_run (Vector.mk 2 5) (Vector.mk 1 0) =
                 Some (Vector.mk 4 5)) by (vm_compute; reflexivity).
  split; [exact Hret|]. split; [vm_compute; reflexivity|].
  split; [vm_compute; reflexivity|]. split; [vm_compute; reflexivity|].
  rewrite Hret. intros [= ?].
Qed.

(** C3 as stated (every strategy clears the preview first) fails: [move] of
    the Freeform strategy writes the cell at once and never calls
    [clearDraw]. *)
Lemma freeform_move_does_not_clear :
  let controller :=
    StateController.mk (fresh empty_grid) (Freeform (DrawFreeform.new (Some "O"%string))) in
  let after := StateController.handleDrawingMove controller (Vector.mk 1 1) in
  calls (StateController.state after.1) = [CSetValue (Vector.mk 1 1) (Some "O"%string)] ∧
  CClearDraw ∉ calls (StateController.state after.1).
Proof.
  cbv zeta.
  assert (Hcalls :
    calls (StateController.state
             (StateController.handleDrawingMove
                (StateController.mk (fresh empty_grid)
                   (Freeform (DrawFreeform.new (Some "O"%string))))
                (Vector.mk 1 1)).1) =
    [CSetValue (Vector.mk 1 1) (Some "O"%string)]) by reflexivity.
  split; [exact Hcalls|]. rewrite Hcalls.
  intros Hin. apply elem_of_cons in Hin as [Heq|Hin]; [discriminate Heq|].
  by apply elem_of_nil in Hin.
Qed.

Lemma line_move_orientation_witness :
  DrawLine.startPosition (DrawLine.mk (Some (Vector.mk 0 0))) = Some (Vector.mk 0 0) ∧
  Context.up (getContext (clearDraw (fresh vertical_line)) (Vector.mk 0 0)) = true ∧
  Context.down (getContext (clearDraw (fresh vertical_line)) (Vector.mk 0 0)) = true ∧
  last (calls (DrawLine.move (DrawLine.mk (Some (Vector.mk 0 0))) (Vector.mk 3 0)
                 (fresh vertical_line)).1.2) =
    Some (CDrawSpecial (Vector.mk 3 0)).
Proof.
  destruct (line_move_orientation (fresh vertical_line)
              (DrawLine.mk (Some (Vector.mk 0 0))) (Vector.mk 0 0) (Vector.mk 3 0)
              eq_refl) as (_ & _ & _ & _ & Hscenario).
  split; [reflexivity|]. split; [reflexivity|]. split; [reflexivity|].
  apply Hscenario; reflexivity.
Defined.

Lemma box_move_outline_witness :
  DrawBox.startPosition (DrawBox.mk (Some (Vector.mk 0 0)) None) = Some (Vector.mk 0 0) ∧
  ∀ p, p ∈ preview (calls (DrawBox.move (DrawBox.mk (Some (Vector.mk 0 0)) None)
                             (Vector.mk 3 2) (fresh empty_grid)).1.2) ↔
       on_outline (Vector.mk 0 0) (Vector.mk 3 2) p.
Proof.
  split; [reflexivity|].
  apply (box_move_outline (fresh empty_grid) (DrawBox.mk (Some (Vector.mk 0 0)) None)
           (Vector.mk 0 0) (Vector.mk 3 2) empty_grid empty_grid eq_refl).
Defined.

Lemma followLine_stops_witness :
  DrawMove.followLine 2 horizontal_run (Vector.mk 2 5) (Vector.mk 1 0) =
    Some (Vector.steps (Vector.mk 2 5) (Vector.mk 1 0) 2).
Proof.
  apply (proj2 (followLine_stops 2 horizontal_run (Vector.mk 2 5) (Vector.mk 1 0)
                  (Vector.steps (Vector.mk 2 5) (Vector.mk 1 0) 2))).
  exists 2%nat. split; [reflexivity|]. split.
  { intros j Hj. assert (Hcases : j = 1%nat ∨ j = 2%nat) by lia.
    destruct Hcases as [->| ->]; reflexivity. }
  split.
  { intros j Hj. assert (Hone : j = 1%nat) by lia. subst j. reflexivity. }
  right. split; [lia | reflexivity].
Defined.

(** ** Further properties of the line renderer *)

Section LineFacts.

Context {St : Type} `{StateOps St}.
Implicit Types (l : Logged St) (st : St) (p A B : Vector.t) (cw : bool).

Lemma preview_fresh_drawLine st A B cw :
  preview (calls (drawLine (fresh st) A B cw)) = list_to_set (line_cells A B cw).
Proof. rewrite preview_drawLine. cbn. set_solver. Qed.

Lemma length_row_cells hY a b : length (row_cells hY a b) = Z.to_nat (b - a).
Proof. unfold row_cells. by rewrite length_fmap, length_seqZ. Qed.

Lemma length_col_cells vX a b : length (col_cells vX a b) = Z.to_nat (b - a).
Proof. unfold col_cells. by rewrite length_fmap, length_seqZ. Qed.

(** A duplicate-free enumeration of the cells of the path: the whole row of
    the corner, then the column of the corner without the corner. *)
Lemma line_cells_enumeration A B cw :
  ∃ cells : list Vector.t,
    NoDup cells ∧
    length cells =
      Z.to_nat (Z.abs (Vector.x A - Vector.x B) + Z.abs (Vector.y A - Vector.y B) + 1) ∧
    ∀ p, p ∈ cells ↔ p ∈ line_cells A B cw.
Proof.
  set (hX1 := Z.min (Vector.x A) (Vector.x B)).
  set (hX2 := Z.max (Vector.x A) (Vector.x B)).
  set (vY1 := Z.min (Vector.y A) (Vector.y B)).
  set (vY2 := Z.max (Vector.y A) (Vector.y B)).
  set (hY := Vector.y (corner A B cw)). set (vX := Vector.x (corner A B cw)).
  set (ys := if decide (hY = vY1) then seqZ (vY1 + 1) (vY2 - vY1)
             else seqZ vY1 (vY2 - vY1)).
  exists (((fun x => Vector.mk x hY) <$> seqZ hX1 (hX2 - hX1 + 1)) ++
          ((fun y => Vector.mk vX y) <$> ys)).
  assert (Hys : ∀ y, y ∈ ys ↔ vY1 ≤ y ≤ vY2 ∧ y ≠ hY).
  { intros y. unfold ys, hY, vY1, vY2, corner.
    destruct A, B, cw; cbn; case_decide; rewrite elem_of_seqZ; lia. }
  split; [|split].
  - apply NoDup_app. split; [|split].
    + apply NoDup_fmap_2; [|apply NoDup_seqZ]. by intros x1 x2 [= ->].
    + intros p Hrow Hcol.
      apply list_elem_of_fmap in Hrow as (x & -> & _).
      apply list_elem_of_fmap in Hcol as (y & [= _ Hy] & Hin).
      apply Hys in Hin. lia.
    + apply NoDup_fmap_2; [by intros y1 y2 [= ->]|].
      unfold ys. case_decide; apply NoDup_seqZ.
  - rewrite length_app, !length_fmap, length_seqZ.
    assert (Hlen : length ys = Z.to_nat (vY2 - vY1)).
    { unfold ys. case_decide; apply length_seqZ. }
    rewrite Hlen. unfold hX1, hX2, vY1, vY2. lia.
  - intros p. rewrite elem_of_app, !list_elem_of_fmap, elem_of_line_cells.
    fold hX1 hX2 vY1 vY2 hY vX. split.
    + intros [(x & -> & Hx)|(y & -> & Hy)].
      * left. apply elem_of_seqZ in Hx. cbn. lia.
      * right. apply Hys in Hy. cbn. lia.
    + intros [[Hy Hx]|[Hx Hy]].
      * left. exists (Vector.x p). split; [destruct p; cbn in *; by subst|].
        apply elem_of_seqZ. lia.
      * destruct (decide (Vector.y p = hY)) as [Hcorner|Hoff].
        -- left. exists (Vector.x p). split; [destruct p; cbn in *; by subst|].
           apply elem_of_seqZ. rewrite Hx. unfold vX, hX1, hX2, corner.
           destruct cw; cbn; lia.
        -- right. exists (Vector.y p). split; [destruct p; cbn in *; by subst|].
           apply Hys. lia.
Qed.

(** X1: the cells [drawLine] marks are exactly the closed horizontal run of
    the corner's row between the two x coordinates together with the closed
    vertical run of the corner's column between the two y coordinates; in
    particular nothing is marked outside the bounding box of the endpoints. *)
Theorem drawLine_marked_cells st A B cw p :
  let hY := if cw then Vector.y A else Vector.y B in
  let vX := if cw then Vector.x B else Vector.x A in
  (p ∈ preview (calls (drawLine (fresh st) A B cw)) ↔
     (Vector.y p = hY ∧
      Z.min (Vector.x A) (Vector.x B) ≤ Vector.x p ≤ Z.max (Vector.x A) (Vector.x B)) ∨
     (Vector.x p = vX ∧
      Z.min (Vector.y A) (Vector.y B) ≤ Vector.y p ≤ Z.max (Vector.y A) (Vector.y B))) ∧
  (p ∈ preview (calls (drawLine (fresh st) A B cw)) →
     Z.min (Vector.x A) (Vector.x B) ≤ Vector.x p ≤ Z.max (Vector.x A) (Vector.x B) ∧
     Z.min (Vector.y A) (Vector.y B) ≤ Vector.y p ≤ Z.max (Vector.y A) (Vector.y B)).
Proof.
  cbv zeta. rewrite preview_fresh_drawLine, elem_of_list_to_set, elem_of_line_cells.
  unfold corner. destruct A, B, cw; cbn; (split; [reflexivity | lia]).
Qed.

(** X2: swapping the endpoints and flipping the orientation gives the same
    path: [drawLine(A, B, cw)] and [drawLine(B, A, !cw)] mark the same cells. *)
Theorem drawLine_reverse st A B cw :
  preview (calls (drawLine (fresh st) A B cw)) =
  preview (calls (drawLine (fresh st) B A (negb cw))).
Proof.
  rewrite !preview_fresh_drawLine. apply set_eq. intros p.
  rewrite !elem_of_list_to_set, !elem_of_line_cells.
  unfold corner. destruct A, B, cw; cbn; lia.
Qed.

(** X3: [drawLine] issues [|dx| + |dy| + 3] calls, all of them [drawSpecial],
    and marks [|dx| + |dy| + 1] distinct cells: one per cell of the path. *)
Theorem drawLine_call_count l st A B cw :
  let dx := Z.abs (Vector.x A - Vector.x B) in
  let dy := Z.abs (Vector.y A - Vector.y B) in
  (∃ cells : list Vector.t,
     calls (drawLine l A B cw) = calls l ++ (CDrawSpecial <$> cells) ∧
     length cells = Z.to_nat (dx + dy + 3)) ∧
  size (preview (calls (drawLine (fresh st) A B cw))) = Z.to_nat (dx + dy + 1).
Proof.
  cbv zeta. split.
  - exists (line_cells A B cw). split; [apply drawLine_calls|].
    unfold line_cells. rewrite !length_app, length_row_cells, length_col_cells. cbn. lia.
  - rewrite preview_fresh_drawLine.
    destruct (line_cells_enumeration A B cw) as (cells & Hnodup & Hlen & Hmem).
    assert (Hset : (list_to_set (line_cells A B cw) : gset Vector.t) = list_to_set cells).
    { apply set_eq. intros p. rewrite !elem_of_list_to_set. by rewrite Hmem. }
    rewrite Hset, size_list_to_set by done. exact Hlen.
Qed.

(** X4: a line from a cell to itself is that one cell: the two scans draw
    nothing and the three final calls all mark it, whatever the orientation. *)
Theorem drawLine_single_cell l A cw :
  calls (drawLine l A A cw) = calls l ++ [CDrawSpecial A; CDrawSpecial A; CDrawSpecial A] ∧
  preview (calls (drawLine l A A cw)) = preview (calls l) ∪ {[ A ]}.
Proof.
  assert (Hcells : line_cells A A cw = [A; A; A]).
  { unfold line_cells, row_cells, col_cells, corner.
    rewrite !seqZ_nil by lia. destruct A, cw; reflexivity. }
  split.
  - rewrite drawLine_calls, Hcells. reflexivity.
  - rewrite preview_drawLine, Hcells. set_solver.
Qed.

End LineFacts.

(** ** Further properties of the strategies and of the dispatcher *)


Section DispatcherFacts.

Context {St : Type} `{StateOps St}.
Implicit Types (c : @StateController.t St) (p A : Vector.t) (ps : list Vector.t).

Lemma press_arms (fuel : nat) c A c1 (k : completion) :
  StateController.handleDrawingPress fuel c A = Some (c1, k) →
  k = Normal ∧ armed (StateController.drawFunction c1).
Proof.
  unfold StateController.handleDrawingPress.
  destruct (StateController.drawFunction c) as [b|ln|f|m].
  - intros [= <- <-]. split; [done|]. cbn. by eexists.
  - intros [= <- <-]. split; [done|]. cbn. by eexists.
  - intros [= <- <-]. done.
  - unfold DrawMove.start.
    destruct (for_in _ _ _); [|done]. cbn. intros [= <- <-]. done.
Qed.

Lemma move_armed c p :
  armed (StateController.drawFunction c) →
  (StateController.handleDrawingMove c p).2 = Normal ∧
  armed (StateController.drawFunction (StateController.handleDrawingMove c p).1).
Proof.
  unfold StateController.handleDrawingMove.
  destruct (StateController.drawFunction c) as [[sp ep]|[sp]|f|m]; cbn [armed].
  - intros [A HA]. cbn in HA. subst sp. split; [reflexivity|]. cbn. by eexists.
  - intros [A HA]. cbn in HA. subst sp. split; [reflexivity|]. cbn. by eexists.
  - done.
  - done.
Qed.

Lemma drag_armed c ps :
  armed (StateController.drawFunction c) →
  armed (StateController.drawFunction (drag c ps)).
Proof.
  revert c. induction ps as [|p ps IH]; intros c Harmed; [done|].
  cbn [drag foldl]. apply IH. by apply move_armed.
Qed.

(** X10: once a press has been handled, no move of the gesture throws: the
    press itself completes normally and sets the field that [move] reads,
    and every move keeps it set. *)
Theorem press_then_moves_complete (fuel : nat) c A c1 (k : completion) ps p :
  StateController.handleDrawingPress fuel c A = Some (c1, k) →
  k = Normal ∧ (StateController.handleDrawingMove (drag c1 ps) p).2 = Normal.
Proof.
  intros Hpress. destruct (press_arms fuel c A c1 k Hpress) as [-> Harmed].
  split; [done|]. apply move_armed. by apply drag_armed.
Qed.

End DispatcherFacts.

Lemma press_then_moves_complete_witness :
  StateController.handleDrawingPress 1 (StateController.new empty_grid) (Vector.mk 0 0) =
    Some (StateController.mk empty_grid (Box (DrawBox.mk (Some (Vector.mk 0 0)) None)),
          Normal) ∧
  (StateController.handleDrawingMove
     (drag (StateController.mk empty_grid (Box (DrawBox.mk (Some (Vector.mk 0 0)) None)))
           [Vector.mk 1 1; Vector.mk 2 1])
     (Vector.mk 3 2)).2 = Normal.
Proof.
  split; [reflexivity|].
  exact (proj2 (press_then_moves_complete 1 (StateController.new empty_grid) (Vector.mk 0 0)
                  _ Normal [Vector.mk 1 1; Vector.mk 2 1] (Vector.mk 3 2) eq_refl)).
Defined.

Section GestureFacts.

Context {St : Type} `{StateOps St}.
Implicit Types (l : Logged St) (st : St) (p q A B : Vector.t) (cw : bool).
Implicit Types (ps : list Vector.t) (ends : list DrawEnd.t).

Lemma outline_cells A B q :
  q ∈ (list_to_set (line_cells A B true ++ line_cells A B false) : gset Vector.t) ↔
  on_outline A B q.
Proof.
  rewrite elem_of_list_to_set, elem_of_app, !elem_of_line_cells.
  unfold on_outline, corner. destruct q, A, B. cbn. lia.
Qed.

Lemma box_move_calls l (ep : option Vector.t) A B :
  calls (DrawBox.move (DrawBox.mk (Some A) ep) B l).1.2 =
  calls l ++ CClearDraw :: (CDrawSpecial <$> (line_cells A B true ++ line_cells A B false)).
Proof.
  change (DrawBox.move (DrawBox.mk (Some A) ep) B l)
    with (DrawBox.mk (Some A) (Some B),
          drawLine (drawLine (clearDraw l) A B true) A B false, Normal).
  cbn [fst snd]. rewrite !drawLine_calls. cbn. by rewrite fmap_app, <- !app_assoc.
Qed.




(** X5: the box does not depend on which of its corners is the anchor: moving
    from anchor [A] to [B] and from anchor [B] to [A] leave the same preview. *)
Theorem box_outline_symmetric l l' (ep ep' : option Vector.t) A B :
  preview (calls (DrawBox.move (DrawBox.mk (Some A) ep) B l).1.2) =
  preview (calls (DrawBox.move (DrawBox.mk (Some B) ep') A l').1.2).
Proof.
  rewrite !box_move_calls, !preview_after_clear. apply set_eq. intros q.
  rewrite !outline_cells. unfold on_outline. lia.
Qed.




Lemma drag_freeform l (self : DrawFreeform.t) ps :
  drag (StateController.mk l (Freeform self)) ps =
  StateController.mk
    (mkLogged (foldl (fun st p => setValue st p (DrawFreeform.value self)) (inner l) ps)
              (calls l ++ ((fun p => CSetValue p (DrawFreeform.value self)) <$> ps)))
    (Freeform self).
Proof.
  revert l. induction ps as [|p ps IH]; intros l.
  - cbn. rewrite app_nil_r. by destruct l.
  - cbn [drag foldl]. unfold drag in IH.
    change (StateController.handleDrawingMove (StateController.mk l (Freeform self)) p).1
      with (StateController.mk (setValue l p (DrawFreeform.value self)) (Freeform self)).
    rewrite IH. cbn. by rewrite <- app_assoc.
Qed.



(** X8: a Freeform gesture writes the glyph (or erases, when the value is
    [null]) at the pressed cell and at every cell moved over, in order, each
    with one [setValue]; it never touches the preview and never commits. *)
Theorem freeform_gesture (fuel : nat) l (self : DrawFreeform.t) A ps R :
  ∃ c1 c3,
    StateController.handleDrawingPress fuel (StateController.mk l (Freeform self)) A =
      Some (c1, Normal) ∧
    StateController.handleDrawingRelease (drag c1 ps) R = (c3, Normal) ∧
    StateController.drawFunction c3 = Freeform self ∧
    calls (StateController.state c3) =
      calls l ++ ((fun q => CSetValue q (DrawFreeform.value self)) <$> (A :: ps)) ∧
    inner (StateController.state c3) =
      foldl (fun st q => setValue st q (DrawFreeform.value self)) (inner l) (A :: ps).
Proof.
  exists (StateController.mk (setValue l A (DrawFreeform.value self)) (Freeform self)).
  eexists. split; [reflexivity|]. rewrite drag_freeform.
  split; [reflexivity|]. split; [reflexivity|]. split; [|reflexivity].
  cbn. by rewrite <- app_assoc.
Qed.


End GestureFacts.

(** X11: selecting a mode issues no grid call and installs a fresh strategy,
    whatever gesture was in flight.  A move handled right after it, with no
    press in between, clears the preview and then throws for Box and Line
    (their anchor is still [null]), only clears the preview for Move (there
    are no DrawEnds yet), and writes the cell for Freeform and Erase. *)
Theorem click_installs_fresh_strategy {St : Type} `{StateOps St}
    (c : @StateController.t (Logged St)) (b : Button) (p : Vector.t) :
  let c' := StateController.click c b in
  let after := StateController.handleDrawingMove c' p in
  StateController.state c' = StateController.state c ∧
  StateController.drawFunction c' =
    StateController.drawFunction
      (StateController.click (StateController.new (StateController.state c)) b) ∧
  match b with
  | BoxButton | LineButton =>
      after.2 = TypeError ∧
      calls (StateController.state after.1) = calls (StateController.state c) ++ [CClearDraw]
  | MoveButton =>
      after.2 = Normal ∧
      calls (StateController.state after.1) = calls (StateController.state c) ++ [CClearDraw]
  | FreeformButton =>
      after.2 = Normal ∧
      calls (StateController.state after.1) =
        calls (StateController.state c) ++ [CSetValue p (Some "O"%string)]
  | EraseButton =>
      after.2 = Normal ∧
      calls (StateController.state after.1) =
        calls (StateController.state c) ++ [CSetValue p None]
  end.
Proof.
  cbv zeta. destruct b; (split; [reflexivity|]); (split; [reflexivity|]);
    split; reflexivity.
Qed.

(** ** Further properties of the Move strategy *)

Section TracingFacts.

Context {St : Type} `{StateOps St}.
Implicit Types (st : St) (p d di r position : Vector.t).

Lemma followLine_blocked fuel st p d :
  isSpecial st (Vector.add p d) = false →
  DrawMove.followLine (S fuel) st p d = Some p.
Proof.
  intros Hblocked. unfold DrawMove.followLine. rewrite clone_id.
  cbn [DrawMove.followLine_loop]. by rewrite Hblocked.
Qed.

(** X12: [followLine] makes progress exactly when the cell next to the start
    is special.  If that cell is not special the start itself is returned, at
    the first iteration; whatever is returned otherwise is a special cell
    different from the start. *)
Theorem followLine_progress fuel st p d r :
  (isSpecial st (Vector.add p d) = false →
   DrawMove.followLine (S fuel) st p d = Some p) ∧
  (DrawMove.followLine fuel st p d = Some r →
   (r = p ∨ isSpecial st r = true) ∧
   (Vector.x d ≠ 0 ∨ Vector.y d ≠ 0 →
    (r = p ↔ isSpecial st (Vector.add p d) = false))).
Proof.
  split; [apply followLine_blocked|].
  intros Hr. destruct (followLine_result fuel st p d r Hr) as (k & -> & Hzero & Hsp).
  split.
  - destruct k; [left; apply steps_0 | right; apply Hsp; lia].
  - intros Hd. by rewrite steps_eq_start.
Qed.

Lemma contribution_blocked fuel st position d :
  isSpecial st (Vector.add position d) = false →
  contribution (S fuel) st position d = Some [].
Proof.
  intros Hblocked. unfold contribution, DrawMove.start_outer.
  rewrite followLine_blocked by done. cbn [mbind option_bind].
  by rewrite (proj2 (equals_spec position position) eq_refl).
Qed.

(** A Context with a single special neighbour is not straight. *)
Lemma dead_end_not_straight (c : Context.t) :
  neighbours c = 1 → DrawMove.straight c = false.
Proof. destruct c as [[] [] [] []]; cbn; (done || lia). Qed.

(** X14: the straight-line rule of [start].  If the run from the pivot in a
    direction consists of [k >= 1] special cells, all straight but the last,
    and the last has exactly one special neighbour, then that direction
    contributes exactly one DrawEnd: the last cell of the run, with
    [clockwise] set exactly for a horizontal direction. *)
Theorem dead_end_contribution fuel st position di (k : nat) :
  di ∈ DrawMove.directions →
  (1 ≤ k ≤ fuel)%nat →
  (∀ j, (1 ≤ j ≤ k)%nat → isSpecial st (Vector.steps position di j) = true) →
  (∀ j, (1 ≤ j < k)%nat →
        DrawMove.straight (getContext st (Vector.steps position di j)) = true) →
  neighbours (getContext st (Vector.steps position di k)) = 1 →
  contribution fuel st position di =
    Some [DrawEnd.mk (Vector.steps position di k) (negb (Vector.x di =? 0))].
Proof.
  intros Hdi Hk Hsp Hstr Hone.
  pose proof (dead_end_not_straight _ Hone) as Hnst.
  assert (Hfollow : DrawMove.followLine fuel st position di =
                    Some (Vector.steps position di k)).
  { apply followLine_spec. exists k. split; [done|]. split.
    - split; [lia|]. split; [intros; apply Hsp; lia|].
      split; [intros; apply Hstr; lia|]. right. split; [lia | done].
    - right. split; [lia|]. split; [lia | done]. }
  unfold contribution, DrawMove.start_outer. rewrite Hfollow. cbn [mbind option_bind].
  destruct (Vector.equals position (Vector.steps position di k)) eqn:Heq.
  { apply equals_spec in Heq. symmetry in Heq.
    apply steps_eq_start in Heq; [lia | by apply direction_nonzero]. }
  fold (neighbours (getContext st (Vector.steps position di k))).
  by rewrite Hone.
Qed.

(** What each direction contributes lies on special cells, carries the flag
    of that direction and was found through it. *)
Lemma contribution_special fuel st position di (e : list DrawEnd.t) :
  di ∈ DrawMove.directions →
  contribution fuel st position di = Some e →
  Forall (fun en => DrawEnd.clockwise en = negb (Vector.x di =? 0) ∧
                    isSpecial st (DrawEnd.position en) = true ∧
                    found_through fuel st position di en) e.
Proof.
  intros Hdi He.
  destruct (contribution_spec fuel st position di e Hdi He)
    as (m & Hm & Hnone & Hone & _ & Hflag & Hmany).
  destruct (followLine_result fuel st position di m Hm) as (k & Hmk & _ & Hmsp).
  destruct (decide (m = position)) as [Hback|Hgone].
  { rewrite (Hnone Hback). constructor. }
  assert (Hmspecial : isSpecial st m = true).
  { apply Hmsp. destruct k; [|lia]. rewrite steps_0 in Hmk. done. }
  destruct (decide (neighbours (getContext st m) = 1)) as [Hdead|Hbranch].
  { rewrite (Hone Hgone Hdead). repeat constructor; [done|].
    exists m. split; [done|]. split; [done|]. by left. }
  specialize (Hmany Hgone Hbranch).
  rewrite Forall_forall in Hflag, Hmany. apply Forall_forall. intros en Hen.
  split; [by apply Hflag|].
  destruct (Hmany en Hen) as (Hmoved & dj & Hdj & _ & Hend).
  split.
  - destruct (followLine_result fuel st m dj _ Hend) as (k' & Hk' & _ & Hsp').
    apply Hsp'. destruct k'; [|lia]. rewrite steps_0 in Hk'. done.
  - exists m. split; [done|]. split; [done|]. right. by exists dj.
Qed.

(** X15: whenever [start] returns, the grid is untouched and the stored
    DrawEnds are those contributed by the four first hops, in the order
    right, left, down ([y + 1]), up ([y - 1]).  Every DrawEnd sits on a
    special cell and was found through the first hop of its group; those of
    the two horizontal first hops come first and carry [clockwise = true],
    those of the two vertical first hops follow and carry
    [clockwise = false]. *)
Theorem start_ends_are_special fuel st (self started : DrawMove.t) position
    (st' : St) (k : completion) :
  DrawMove.start fuel self position st = Some (started, st', k) →
  st' = st ∧ k = Normal ∧
  ∃ rightward leftward downward upward : list DrawEnd.t,
    contribution fuel st position (Vector.mk 1 0) = Some rightward ∧
    contribution fuel st position (Vector.mk (-1) 0) = Some leftward ∧
    contribution fuel st position (Vector.mk 0 1) = Some downward ∧
    contribution fuel st position (Vector.mk 0 (-1)) = Some upward ∧
    DrawMove.ends started = Some ((rightward ++ leftward) ++ (downward ++ upward)) ∧
    Forall (fun e => DrawEnd.clockwise e = true ∧
                     isSpecial st (DrawEnd.position e) = true ∧
                     found_through fuel st position (Vector.mk 1 0) e) rightward ∧
    Forall (fun e => DrawEnd.clockwise e = true ∧
                     isSpecial st (DrawEnd.position e) = true ∧
                     found_through fuel st position (Vector.mk (-1) 0) e) leftward ∧
    Forall (fun e => DrawEnd.clockwise e = false ∧
                     isSpecial st (DrawEnd.position e) = true ∧
                     found_through fuel st position (Vector.mk 0 1) e) downward ∧
    Forall (fun e => DrawEnd.clockwise e = false ∧
                     isSpecial st (DrawEnd.position e) = true ∧
                     found_through fuel st position (Vector.mk 0 (-1)) e) upward.
Proof.
  rewrite start_decompose.
  destruct (contribution fuel st position (Vector.mk 1 0)) as [e1|] eqn:He1; [|done].
  destruct (contribution fuel st position (Vector.mk (-1) 0)) as [e2|] eqn:He2; [|done].
  destruct (contribution fuel st position (Vector.mk 0 1)) as [e3|] eqn:He3; [|done].
  destruct (contribution fuel st position (Vector.mk 0 (-1))) as [e4|] eqn:He4; [|done].
  cbn. intros [= <- <- <-]. split; [done|]. split; [done|].
  exists e1, e2, e3, e4. do 4 (split; [done|]).
  split; [cbn; by rewrite <- app_assoc|].
  assert (Hd1 : Vector.mk 1 0 ∈ DrawMove.directions) by (unfold DrawMove.directions; set_solver).
  assert (Hd2 : Vector.mk (-1) 0 ∈ DrawMove.directions) by (unfold DrawMove.directions; set_solver).
  assert (Hd3 : Vector.mk 0 1 ∈ DrawMove.directions) by (unfold DrawMove.directions; set_solver).
  assert (Hd4 : Vector.mk 0 (-1) ∈ DrawMove.directions) by (unfold DrawMove.directions; set_solver).
  split; [exact (contribution_special fuel st position _ e1 Hd1 He1)|].
  split; [exact (contribution_special fuel st position _ e2 Hd2 He2)|].
  split; [exact (contribution_special fuel st position _ e3 Hd3 He3)|].
  exact (contribution_special fuel st position _ e4 Hd4 He4).
Qed.

End TracingFacts.

(** X13: dragging empty space is a no-op.  When none of the four cells next to
    the pivot is special, [start] stores no DrawEnd, and a later [move] only
    clears the preview: it marks no cell. *)
Theorem isolated_pivot_draws_nothing {St : Type} `{StateOps St}
    (fuel : nat) (l : Logged St) (self : DrawMove.t) (position q : Vector.t) :
  (∀ d, d ∈ DrawMove.directions → isSpecial l (Vector.add position d) = false) →
  ∃ started : DrawMove.t,
    DrawMove.start (S fuel) self position l = Some (started, l, Normal) ∧
    DrawMove.ends started = Some [] ∧
    calls (DrawMove.move started q l).1.2 = calls l ++ [CClearDraw] ∧
    preview (calls (DrawMove.move started q l).1.2) = ∅.
Proof.
  intros Hisolated. exists (DrawMove.mk (Some [])).
  split.
  { rewrite start_decompose.
    rewrite !contribution_blocked
      by (apply Hisolated; unfold DrawMove.directions; set_solver).
    reflexivity. }
  split; [reflexivity|].
  assert (Hcalls : calls (DrawMove.move (DrawMove.mk (Some [])) q l).1.2 =
                   calls l ++ [CClearDraw]) by reflexivity.
  split; [exact Hcalls|]. rewrite Hcalls, preview_app. reflexivity.
Qed.

Lemma isolated_pivot_draws_nothing_witness :
  (∀ d, d ∈ DrawMove.directions →
        isSpecial (fresh horizontal_run) (Vector.add (Vector.mk 0 0) d) = false) ∧
  ∃ started : DrawMove.t,
    DrawMove.start 1 DrawMove.new (Vector.mk 0 0) (fresh horizontal_run) =
      Some (started, fresh horizontal_run, Normal) ∧
    DrawMove.ends started = Some [] ∧
    calls (DrawMove.move started (Vector.mk 3 3) (fresh horizontal_run)).1.2 =
      [CClearDraw] ∧
    preview (calls (DrawMove.move started (Vector.mk 3 3) (fresh horizontal_run)).1.2) = ∅.
Proof.
  assert (Hisolated : ∀ d, d ∈ DrawMove.directions →
            isSpecial (fresh horizontal_run) (Vector.add (Vector.mk 0 0) d) = false).
  { intros d Hd. unfold DrawMove.directions in Hd.
    rewrite !elem_of_cons, elem_of_nil in Hd.
    destruct Hd as [->|[->|[->|[->|[]]]]]; reflexivity. }
  split; [exact Hisolated|].
  exact (isolated_pivot_draws_nothing 0 (fresh horizontal_run) DrawMove.new
           (Vector.mk 0 0) (Vector.mk 3 3) Hisolated).
Defined.

Lemma followLine_progress_witness :
  isSpecial horizontal_run (Vector.add (Vector.mk 2 5) (Vector.mk (-1) 0)) = false ∧
  DrawMove.followLine 1 horizontal_run (Vector.mk 2 5) (Vector.mk (-1) 0) =
    Some (Vector.mk 2 5) ∧
  DrawMove.followLine 2 horizontal_run (Vector.mk 2 5) (Vector.mk 1 0) =
    Some (Vector.mk 4 5) ∧
  (Vector.mk 4 5 = Vector.mk 2 5 ∨ isSpecial horizontal_run (Vector.mk 4 5) = true).
Proof.
  split; [reflexivity|]. split.
  - exact (proj1 (followLine_progress 0 horizontal_run (Vector.mk 2 5) (Vector.mk (-1) 0)
                    (Vector.mk 2 5)) eq_refl).
  - split; [reflexivity|].
    exact (proj1 (proj2 (followLine_progress 2 horizontal_run (Vector.mk 2 5)
                           (Vector.mk 1 0) (Vector.mk 4 5)) eq_refl)).
Defined.

Lemma dead_end_contribution_witness :
  Vector.mk 1 0 ∈ DrawMove.directions ∧ (1 ≤ 2 ≤ 2)%nat ∧
  neighbours (getContext horizontal_run
                (Vector.steps (Vector.mk 2 5) (Vector.mk 1 0) 2)) = 1 ∧
  contribution 2 horizontal_run (Vector.mk 2 5) (Vector.mk 1 0) =
    Some [DrawEnd.mk (Vector.steps (Vector.mk 2 5) (Vector.mk 1 0) 2) true].
Proof.
  assert (Hd : Vector.mk 1 0 ∈ DrawMove.directions)
    by (unfold DrawMove.directions; apply elem_of_cons; by left).
  split; [exact Hd|]. split; [lia|]. split; [reflexivity|].
  apply (dead_end_contribution 2 horizontal_run (Vector.mk 2 5) (Vector.mk 1 0) 2 Hd).
  - lia.
  - intros j Hj. assert (Hcases : j = 1%nat ∨ j = 2%nat) by lia.
    destruct Hcases as [->| ->]; reflexivity.
  - intros j Hj. assert (Hone : j = 1%nat) by lia. subst j. reflexivity.
  - reflexivity.
Defined.

Lemma start_ends_are_special_witness :
  DrawMove.start 2 DrawMove.new (Vector.mk 0 0) plus_grid =
    Some (DrawMove.mk
            (Some [DrawEnd.mk (Vector.mk 2 0) true; DrawEnd.mk (Vector.mk 1 1) true;
                   DrawEnd.mk (Vector.mk 1 (-1)) true; DrawEnd.mk (Vector.mk (-2) 0) true;
                   DrawEnd.mk (Vector.mk (-1) 1) true; DrawEnd.mk (Vector.mk (-1) (-1)) true;
                   DrawEnd.mk (Vector.mk 1 1) false; DrawEnd.mk (Vector.mk (-1) 1) false;
                   DrawEnd.mk (Vector.mk 0 2) false; DrawEnd.mk (Vector.mk 1 (-1)) false;
                   DrawEnd.mk (Vector.mk (-1) (-1)) false; DrawEnd.mk (Vector.mk 0 (-2)) false]),
          plus_grid, Normal) ∧
  Forall (fun e => DrawEnd.clockwise e = false ∧
                   isSpecial plus_grid (DrawEnd.position e) = true ∧
                   found_through 2 plus_grid (Vector.mk 0 0) (Vector.mk 0 1) e)
         [DrawEnd.mk (Vector.mk 1 1) false; DrawEnd.mk (Vector.mk (-1) 1) false;
          DrawEnd.mk (Vector.mk 0 2) false].
Proof.
  assert (Hstart : DrawMove.start 2 DrawMove.new (Vector.mk 0 0) plus_grid = Some (_, _, _))
    by (vm_compute; reflexivity).
  split; [exact Hstart|].
  destruct (start_ends_are_special 2 plus_grid DrawMove.new _ (Vector.mk 0 0) _ _ Hstart)
    as (_ & _ & rightward & leftward & downward & upward &
        _ & _ & Hdown & _ & _ & _ & _ & Hfound & _).
  assert (Hvalue : contribution 2 plus_grid (Vector.mk 0 0) (Vector.mk 0 1) =
                   Some [DrawEnd.mk (Vector.mk 1 1) false; DrawEnd.mk (Vector.mk (-1) 1) false;
                         DrawEnd.mk (Vector.mk 0 2) false])
    by (vm_compute; reflexivity).
  rewrite Hvalue in Hdown. injection Hdown as <-. exact Hfound.
Defined.


Section PivotFacts.

Context {St : Type} `{StateOps St}.
Implicit Types (st : St) (position di : Vector.t).

(** Two hops along the axes, the second not straight back, do not return to
    where the first one started. *)
Lemma two_hops_leave position di dj (k k' : nat) :
  di ∈ DrawMove.directions → dj ∈ DrawMove.directions →
  ¬ (Vector.x dj = - Vector.x di ∧ Vector.y dj = - Vector.y di) →
  (0 < k)%nat → (0 < k')%nat →
  Vector.steps (Vector.steps position di k) dj k' ≠ position.
Proof.
  unfold DrawMove.directions. rewrite !elem_of_cons, !elem_of_nil.
  destruct position as [px py]. unfold Vector.steps. cbn. rewrite Vector_mk_eq.
  intros [->|[->|[->|[->|[]]]]] [->|[->|[->|[->|[]]]]]; cbn; lia.
Qed.

Lemma contribution_off_pivot fuel st position di (e : list DrawEnd.t) :
  di ∈ DrawMove.directions →
  contribution fuel st position di = Some e →
  Forall (fun en => DrawEnd.position en ≠ position) e.
Proof.
  intros Hdi He.
  destruct (contribution_spec fuel st position di e Hdi He)
    as (m & Hm & Hnone & Hone & _ & _ & Hmany).
  destruct (decide (m = position)) as [Hback|Hgone].
  { rewrite (Hnone Hback). constructor. }
  destruct (decide (neighbours (getContext st m) = 1)) as [Hdead|Hbranch].
  { rewrite (Hone Hgone Hdead). by repeat constructor. }
  destruct (followLine_result fuel st position di m Hm) as (k & Hmk & _ & _).
  assert (Hk : (0 < k)%nat).
  { destruct k; [|lia]. rewrite steps_0 in Hmk. done. }
  specialize (Hmany Hgone Hbranch). rewrite Forall_forall in Hmany.
  apply Forall_forall. intros en Hen.
  destruct (Hmany en Hen) as (Hmoved & dj & Hdj & Hnotback & Hend).
  destruct (followLine_result fuel st m dj _ Hend) as (k' & Hk' & _ & _).
  assert (0 < k')%nat.
  { destruct k'; [|lia]. rewrite steps_0 in Hk'. done. }
  rewrite Hk', Hmk. by apply two_hops_leave.
Qed.

(** X16: no DrawEnd stored by [start] is the pivot itself: the first hop
    leaves the pivot, and from a branch point the trace never goes straight
    back, so every path re-routed by [move] has two distinct endpoints on the
    original drawing. *)
Theorem start_ends_off_pivot fuel st (self started : DrawMove.t) position
    (st' : St) (k : completion) (ends : list DrawEnd.t) :
  DrawMove.start fuel self position st = Some (started, st', k) →
  DrawMove.ends started = Some ends →
  Forall (fun e => DrawEnd.position e ≠ position) ends.
Proof.
  rewrite start_decompose.
  destruct (contribution fuel st position (Vector.mk 1 0)) as [e1|] eqn:He1; [|done].
  destruct (contribution fuel st position (Vector.mk (-1) 0)) as [e2|] eqn:He2; [|done].
  destruct (contribution fuel st position (Vector.mk 0 1)) as [e3|] eqn:He3; [|done].
  destruct (contribution fuel st position (Vector.mk 0 (-1))) as [e4|] eqn:He4; [|done].
  cbn. intros [= <- <- <-]. cbn. intros [= <-].
  assert (Hd1 : Vector.mk 1 0 ∈ DrawMove.directions) by (unfold DrawMove.directions; set_solver).
  assert (Hd2 : Vector.mk (-1) 0 ∈ DrawMove.directions) by (unfold DrawMove.directions; set_solver).
  assert (Hd3 : Vector.mk 0 1 ∈ DrawMove.directions) by (unfold DrawMove.directions; set_solver).
  assert (Hd4 : Vector.mk 0 (-1) ∈ DrawMove.directions) by (unfold DrawMove.directions; set_solver).
  rewrite !Forall_app.
  split; [exact (contribution_off_pivot fuel st position _ e1 Hd1 He1)|].
  split; [exact (contribution_off_pivot fuel st position _ e2 Hd2 He2)|].
  split; [exact (contribution_off_pivot fuel st position _ e3 Hd3 He3)|].
  exact (contribution_off_pivot fuel st position _ e4 Hd4 He4).
Qed.

End PivotFacts.

Lemma start_ends_off_pivot_witness :
  DrawMove.start 2 DrawMove.new (Vector.mk 2 5) horizontal_run =
    Some (DrawMove.mk (Some [DrawEnd.mk (Vector.mk 4 5) true]), horizontal_run, Normal) ∧
  DrawMove.ends (DrawMove.mk (Some [DrawEnd.mk (Vector.mk 4 5) true])) =
    Some [DrawEnd.mk (Vector.mk 4 5) true] ∧
  Forall (fun e => DrawEnd.position e ≠ Vector.mk 2 5) [DrawEnd.mk (Vector.mk 4 5) true].
Proof.
  assert (Hstart : DrawMove.start 2 DrawMove.new (Vector.mk 2 5) horizontal_run =
                   Some (DrawMove.mk (Some [DrawEnd.mk (Vector.mk 4 5) true]),
                         horizontal_run, Normal))
    by (vm_compute; reflexivity).
  split; [exact Hstart|]. split; [reflexivity|].
  exact (start_ends_off_pivot 2 horizontal_run DrawMove.new _ (Vector.mk 2 5) _ _ _
           Hstart eq_refl).
Defined.
